(** * PyFileSeq: a shallow embedding of [fileseq.py]

    The development follows the Python 2 module [fileseq.py]: the
    [FileSequence] class (a numbered range of file names) and its
    class methods [find] and [find_in_list], which split a list of names
    into file sequences and remaining files.

    Python values are modelled as follows.
    - [str] is [string] (a sequence of bytes, compared bytewise);
    - [int] and [long] are [Z]; the only place where the width of a C long
      matters is [xrange], whose arguments CPython 2 converts to C longs and
      rejects with [OverflowError] otherwise; [sys.maxint] is a parameter
      of the detector (Section [Detector]). The methods of the class are
      modelled for attributes of ordinary size: where CPython needs a C
      integer there (the value of [__len__], the width given to [zfill],
      the count of a string repetition), the number is taken to fit;
    - a raised exception is the [Raise] case of [result];
    - the list [entries], which [find_in_list] sorts and consumes in place,
      is threaded through the detector as explicit state. *)

From Stdlib Require Import ZArith List String Ascii Bool Lia.
From Stdlib Require Import Permutation Sorted DecimalString DecimalFacts DecimalZ DecimalPos.
Import ListNotations.

#[local] Open Scope string_scope.
#[local] Open Scope list_scope.
#[local] Open Scope Z_scope.

(** ** Exceptions *)

Inductive error : Type :=
| IndexError
| OverflowError
| ValueError
| KeyError
| TypeError.

Inductive result (A : Type) : Type :=
| Ok (a : A)
| Raise (e : error).

Arguments Ok {A} a.
Arguments Raise {A} e.

Definition bind {A B : Type} (m : result A) (f : A -> result B) : result B :=
  match m with
  | Ok a => f a
  | Raise e => Raise e
  end.

Notation "x <- m ;; k" := (bind m (fun x => k))
  (at level 61, m at next level, right associativity).
Notation "' p <- m ;; k" := (bind m (fun x => match x with p => k end))
  (at level 61, p pattern, m at next level, right associativity).

Fixpoint mapM {A B : Type} (f : A -> result B) (l : list A) : result (list B) :=
  match l with
  | [] => Ok []
  | a :: l' => b <- f a ;; bs <- mapM f l' ;; Ok (b :: bs)
  end.

(** ** Strings *)

(** [len(s)] *)
Definition len (s : string) : Z := Z.of_nat (String.length s).

(** [''.join(l)] *)
Definition join (l : list string) : string := fold_right append "" l.

(** [c * n] for a string [c]: [n] copies, none when [n <= 0]. *)
Definition str_mul (c : string) (n : Z) : string :=
  join (repeat c (Z.to_nat n)).

(** [str(n)] for an integer [n]. *)
Definition str (n : Z) : string := NilZero.string_of_int (Z.to_int n).

(** [int(s)] on an unsigned decimal literal [s], the only form the detector
    passes to it (a match of [[0-9]+]). *)
Definition int (s : string) : Z :=
  match NilEmpty.uint_of_string s with
  | Some d => Z.of_uint d
  | None => 0
  end.

Definition is_sign (c : ascii) : bool :=
  (Ascii.eqb c "+" || Ascii.eqb c "-")%bool.

(** [s.zfill(width)]: the string itself when it is at least [width] long,
    else zeros on the left, after a leading sign. *)
Definition zfill (s : string) (width : Z) : string :=
  if width <=? len s then s
  else
    let fill := str_mul "0" (width - len s) in
    match s with
    | String c rest => if is_sign c then String c (fill ++ rest) else fill ++ s
    | EmptyString => fill
    end.

(** [s.startswith(p)] *)
Definition startswith (s p : string) : bool := String.prefix p s.

Definition is_digit (c : ascii) : bool :=
  match c with
  | "0" | "1" | "2" | "3" | "4" | "5" | "6" | "7" | "8" | "9" => true
  | _ => false
  end%char.

(** [NUMBER_PATTERN.split(s)] with [NUMBER_PATTERN = re.compile("([0-9]+)")]:
    the literal pieces of [s] at the even positions and, between them, the
    maximal runs of digits at the odd positions. *)
Fixpoint split (s : string) : list string :=
  match s with
  | EmptyString => [""]
  | String c s' =>
      match split s' with
      | lit :: rest =>
          if is_digit c then
            match lit, rest with
            | EmptyString, d :: rest' => "" :: String c d :: rest'
            | _, _ => "" :: String c "" :: lit :: rest
            end
          else String c lit :: rest
      | [] => [String c ""]
      end
  end.

(** ** Lists *)

(** [x in l] *)
Definition mem (x : string) (l : list string) : bool :=
  existsb (String.eqb x) l.

(** [l.remove(x)]: the first occurrence goes. *)
Fixpoint remove (x : string) (l : list string) : list string :=
  match l with
  | [] => []
  | y :: l' => if String.eqb x y then l' else y :: remove x l'
  end.

(** [l[i] = x] for [0 <= i < len(l)]. *)
Fixpoint set_item (l : list string) (i : nat) (x : string) : list string :=
  match l, i with
  | [], _ => []
  | _ :: l', O => x :: l'
  | y :: l', S i' => y :: set_item l' i' x
  end.

(** [l.sort()] on strings: the ascending arrangement of [l]. *)
Fixpoint insert (x : string) (l : list string) : list string :=
  match l with
  | [] => [x]
  | y :: l' => if String.leb x y then x :: l else y :: insert x l'
  end.

Definition sort (l : list string) : list string := fold_right insert [] l.

(** [range(start, stop, step)] for [step <> 0]. *)
Definition range_count (start stop step : Z) : nat :=
  if 0 <? step then Z.to_nat ((stop - start + step - 1) / step)
  else Z.to_nat ((start - stop - step - 1) / (- step)).

Definition range (start stop step : Z) : list Z :=
  map (fun k => start + Z.of_nat k * step) (seq 0 (range_count start stop step)).

(** ** The class [FileSequence] *)

Record FileSequence : Type := {
  path : string;
  head : string;
  tail : string;
  first : Z;
  last : Z;
  padding : Z
}.

(** [__init__]: the [path] argument is not stored. *)
Definition init (path_ head_ tail_ : string) (first_ last_ padding_ : Z) : FileSequence :=
  {| path := ""; head := head_; tail := tail_;
     first := first_; last := last_; padding := padding_ |}.

(** [__len__] *)
Definition length (self : FileSequence) : Z := (last self - first self) + 1.

(** [__repr__] *)
Definition repr (self : FileSequence) : string :=
  join [head self; "["; zfill (str (first self)) (padding self); "-";
        zfill (str (last self)) (padding self); "]"; tail self].

(** [filename] *)
Definition filename (self : FileSequence) (number : Z) : result string :=
  if ((first self <=? number) && (number <=? last self))%bool then
    Ok (join [head self; zfill (str number) (padding self); tail self])
  else Raise IndexError.

(** [__iter__]: the file names the generator yields, in order. *)
Definition iter (self : FileSequence) : result (list string) :=
  mapM (filename self) (range (first self) (last self + 1) 1).

(** The keys of [__getitem__] other than slices: [KInt k] is an [int] (a
    number between [-sys.maxint - 1] and [sys.maxint]); [KOther] is a value
    of any other type. *)
Inductive key : Type :=
| KInt (k : Z)
| KOther.

(** [__getitem__] *)
Definition getitem (self : FileSequence) (k : key) : result string :=
  match k with
  | KInt k =>
      if 0 <=? k then filename self (first self + k)
      else filename self (last self - (k * -1) + 1)
  | KOther => Raise TypeError
  end.

(** [len(self)]: the value of [__len__], which must not be negative. *)
Definition len_self (self : FileSequence) : result Z :=
  if length self <? 0 then Raise ValueError else Ok (length self).

(** The truth value of an instance, which Python takes from [__len__]. *)
Definition truth (self : FileSequence) : result bool :=
  n <- len_self self ;; Ok (negb (n =? 0)).

(** *** [format] *)

Inductive value : Type :=
| VStr (s : string)
| VInt (n : Z).

Definition str_value (v : value) : string :=
  match v with
  | VStr s => s
  | VInt n => str n
  end.

(** The dictionary [values] of [format]. *)
Definition values (self : FileSequence) (padchar : string)
    : result (list (string * value)) :=
  n <- len_self self ;;
  Ok [ ("head", VStr (head self));
       ("tail", VStr (tail self));
       ("first", VInt (first self));
       ("last", VInt (last self));
       ("length", VInt n);
       ("padding", VInt (padding self));
       ("padchars", VStr (let s := str_mul padchar (padding self) in
                          if String.eqb s "" then padchar else s));
       ("range", VStr (join [str (first self); "-"; str (last self)]));
       ("path", VStr (path self)) ].

Fixpoint lookup (name : string) (d : list (string * value)) : option value :=
  match d with
  | [] => None
  | (k, v) :: d' => if String.eqb name k then Some v else lookup name d'
  end.

Definition plain_name_char (c : ascii) : bool :=
  negb (Ascii.eqb c "{" || Ascii.eqb c "!" || Ascii.eqb c ":"
        || Ascii.eqb c "." || Ascii.eqb c "[" || is_digit c)%bool.

Definition lit (c : ascii) (r : option (result string)) : option (result string) :=
  match r with
  | Some (Ok s) => Some (Ok (String c s))
  | other => other
  end.

Definition subst (v : string) (r : option (result string)) : option (result string) :=
  match r with
  | Some (Ok s) => Some (Ok (v ++ s)%string)
  | other => other
  end.

(** [template.format] applied to the keyword arguments [d], for templates whose replacement fields are plain
    names, with the escapes [{{] and [}}]. [field] holds the name read so
    far inside a replacement field. The answer is [None] on a template that
    uses more of the format language (conversions, format specifications,
    attribute or index access, positional fields). *)
Fixpoint format_with (d : list (string * value)) (template : string)
    (field : option string) : option (result string) :=
  match template with
  | EmptyString =>
      match field with
      | None => Some (Ok "")
      | Some _ => Some (Raise ValueError)
      end
  | String c rest =>
      match field with
      | None =>
          if Ascii.eqb c "{" then
            match rest with
            | String "{" rest' => lit "{" (format_with d rest' None)
            | _ => format_with d rest (Some "")
            end
          else if Ascii.eqb c "}" then
            match rest with
            | String "}" rest' => lit "}" (format_with d rest' None)
            | _ => Some (Raise ValueError)
            end
          else lit c (format_with d rest None)
      | Some name =>
          if Ascii.eqb c "}" then
            match name with
            | EmptyString => None
            | _ =>
                match lookup name d with
                | Some v => subst (str_value v) (format_with d rest None)
                | None => Some (Raise KeyError)
                end
            end
          else if plain_name_char c then format_with d rest (Some (name ++ String c "")%string)
          else None
      end
  end.

(** [format] *)
Definition format (self : FileSequence) (template padchar : string)
    : option (result string) :=
  match values self padchar with
  | Ok d => format_with d template None
  | Raise e => Some (Raise e)
  end.

Definition default_template : string := "{head}%0{padding}d{tail}".
Definition default_padchar : string := "#".

(** ** The rest of the class [FileSequence] *)

(** [s.rstrip(chars)]: the trailing characters that are in [chars] go. *)
Fixpoint rstrip (s chars : string) : string :=
  match s with
  | EmptyString => ""
  | String a s' =>
      match rstrip s' chars with
      | EmptyString =>
          if existsb (Ascii.eqb a) (list_ascii_of_string chars) then ""
          else String a ""
      | r => String a r
      end
  end.

(** [s.split(sep)] for a separator [sep] of one character: the pieces of
    [s] between the separators, one more than there are separators. *)
Fixpoint str_split (s : string) (sep : ascii) : list string :=
  match s with
  | EmptyString => [""]
  | String a s' =>
      match str_split s' sep with
      | piece :: pieces =>
          if Ascii.eqb a sep then "" :: piece :: pieces
          else String a piece :: pieces
      | [] => [String a ""]
      end
  end.

(** The properties [name] and [extension]. *)
Module Attributes.

Definition name (self : FileSequence) : string := rstrip (head self) ".".

Definition extension (self : FileSequence) : string :=
  List.last (str_split (tail self) ".") "".

End Attributes.

(** [slice(start, stop, step).indices(length)], [None] being an absent
    bound: the bounds are brought into the sequence the way list slices
    bring them, and a step of 0 is refused. *)
Definition slice_indices (start_ stop_ step_ : option Z) (length_ : Z)
    : result (Z * Z * Z) :=
  let step' := match step_ with None => 1 | Some c => c end in
  if step' =? 0 then Raise ValueError
  else
    let clip (bound : option Z) (default : Z) : Z :=
      match bound with
      | None => default
      | Some b =>
          let b := if b <? 0 then b + length_ else b in
          if b <? 0 then (if step' <? 0 then -1 else 0)
          else if length_ <=? b then (if step' <? 0 then length_ - 1 else length_)
          else b
      end in
    Ok (clip start_ (if step' <? 0 then length_ - 1 else 0),
        clip stop_ (if step' <? 0 then -1 else length_),
        step').

(** [__getitem__] on the key [slice(start, stop, step)]: the list of
    [self.__getitem__(i)] for [i] in the [xrange] of the three numbers
    [key.indices(len(self))]. *)
Definition getitem_slice (self : FileSequence) (start_ stop_ step_ : option Z)
    : result (list string) :=
  n <- len_self self ;;
  '(a, b, c) <- slice_indices start_ stop_ step_ n ;;
  mapM (fun i => getitem self (KInt i)) (range a b c).

(** ** The detector *)

(** What a call of the generator [adjacent_files] holds once it has started:
    the file name it builds for a number, and the [xrange] it walks. *)
Record generator : Type := {
  candidate : Z -> string;
  start : Z;
  stop : Z;
  step : Z
}.

(** The state of [find_in_list]: the list [entries] it was given, and the two
    lists it returns. *)
Record state : Type := {
  entries : list string;
  sequences : list FileSequence;
  other_files : list string
}.

Definition set_path (search_path : string) (s : FileSequence) : FileSequence :=
  {| path := search_path; head := head s; tail := tail s;
     first := first s; last := last s; padding := padding s |}.

Section Detector.

(** [sys.maxint], the largest C long of the interpreter. *)
Variable maxint : Z.

Definition is_long (n : Z) : bool := ((- maxint - 1 <=? n) && (n <=? maxint))%bool.

(** [xrange(start, stop, step)]: the arguments have to be C longs. The
    object is lazy; only its bounds are kept. *)
Definition xrange (start_ stop_ step_ : Z) : result (Z * Z * Z) :=
  if (is_long start_ && is_long stop_ && is_long step_)%bool
  then Ok (start_, stop_, step_)
  else Raise OverflowError.

(** [adjacent_files(components, index, padding, reverse)], up to its first
    [yield]; [pool] is the list [entries] at that moment. *)
Definition adjacent_files (pool components : list string) (index : Z)
    (padding_ : Z) (reverse : bool) : result generator :=
  let number := int (nth (Z.to_nat index) components "") in
  let name n := join (set_item components (Z.to_nat index) (zfill (str n) padding_)) in
  if reverse then
    '(a, b, s) <- xrange (number - 1) 0 (-1) ;;
    Ok {| candidate := name; start := a; stop := b; step := s |}
  else
    '(a, b, s) <- xrange (number + 1) (number + Z.of_nat (List.length pool) + 1) 1 ;;
    Ok {| candidate := name; start := a; stop := b; step := s |}.

Definition in_xrange (n stop_ step_ : Z) : bool :=
  if 0 <? step_ then n <? stop_ else stop_ <? n.

(** One of the two loops
    [for filename, number in adjacent_files(...): if filename in entries: ... else: break]
    from the number [n] on: the pool that is left and the bound reached.
    Every turn that goes on takes a name out of the pool, so a loop over a
    pool of [k] names makes at most [k + 1] turns: [fuel] counts them. *)
Fixpoint extend (fuel : nat) (g : generator) (n : Z) (pool : list string)
    (bound : Z) : list string * Z :=
  match fuel with
  | O => (pool, bound)
  | S fuel' =>
      if in_xrange n (stop g) (step g) then
        let filename_ := candidate g n in
        if mem filename_ pool
        then extend fuel' g (n + step g) (remove filename_ pool) n
        else (pool, bound)
      else (pool, bound)
  end.

Definition run_generator (g : generator) (pool : list string) (bound : Z)
    : list string * Z :=
  extend (S (List.length pool)) g (start g) pool bound.

(** The body of the loop [for i in range(len(components) - 2, 0, -2)] for
    the index [i], up to the test of [first - last]: the pool that is left,
    and [first], [last] and [padding]. *)
Definition try_field (components : list string) (i : Z) (pool : list string)
    : result (list string * Z * Z * Z) :=
  let c := nth (Z.to_nat i) components "" in
  let first_ := int c in
  let last_ := int c in
  let padding_ := if startswith c "0" then len c else 0 in
  up <- adjacent_files pool components i padding_ false ;;
  let '(pool1, last_) := run_generator up pool last_ in
  down <- adjacent_files pool1 components i padding_ true ;;
  let '(pool2, first_) := run_generator down pool1 first_ in
  Ok (pool2, first_, last_, padding_).

(** The loop [for i in range(len(components) - 2, 0, -2)] over the numeric
    components of [entry], from the indices [indices] on. *)
Fixpoint try_fields (components : list string) (indices : list Z)
    (pool : list string) : result (list string * option FileSequence) :=
  match indices with
  | [] => Ok (pool, None)
  | i :: indices' =>
      '(pool2, first_, last_, padding_) <- try_field components i pool ;;
      if negb (first_ - last_ =? 0) then
        Ok (pool2,
            Some (init "" (join (firstn (Z.to_nat i) components))
                          (join (skipn (Z.to_nat (i + 1)) components))
                          first_ last_ padding_))
      else try_fields components indices' pool2
  end.

(** The loop [while entries]; each turn pops a name, so [fuel], the number
    of names at the start, is never used up before the pool is empty. *)
Fixpoint while_entries (fuel : nat) (st : state) : result state :=
  match fuel, entries st with
  | S fuel', entry :: pool =>
      let components := split entry in
      '(pool', sequence) <-
        try_fields components
          (range (Z.of_nat (List.length components) - 2) 0 (-2)) pool ;;
      keep <- match sequence with
              | Some s => truth s
              | None => Ok false
              end ;;
      match sequence, keep with
      | Some s, true =>
          while_entries fuel'
            {| entries := pool'; sequences := sequences st ++ [s];
               other_files := other_files st |}
      | _, _ =>
          while_entries fuel'
            {| entries := pool'; sequences := sequences st;
               other_files := other_files st ++ [entry] |}
      end
  | _, _ => Ok st
  end.

(** [find_in_list], with the list [entries] it works on as part of the
    outcome. *)
Definition find_in_list_run (entries_ : list string) : result state :=
  while_entries (List.length entries_)
    {| entries := sort entries_; sequences := []; other_files := [] |}.

(** [find_in_list]: the pair it returns. *)
Definition find_in_list (entries_ : list string)
    : result (list FileSequence * list string) :=
  st <- find_in_list_run entries_ ;; Ok (sequences st, other_files st).

(** [find], on the value [listing] of [os.listdir(search_path)]. *)
Definition find (listing : list string) (search_path : string)
    : result (list FileSequence * list string) :=
  '(sequences_, other_files_) <- find_in_list listing ;;
  Ok (map (set_path search_path) sequences_, other_files_).

End Detector.

(** ** Vocabulary of the proofs *)

(** A string that does not start with a sign. *)
Definition unsigned (s : string) : Prop :=
  match s with
  | String c _ => is_sign c = false
  | EmptyString => True
  end.

(** A string of decimal digits, and a match of [[0-9]+]. *)
Fixpoint digits (s : string) : bool :=
  match s with
  | EmptyString => true
  | String c s' => (is_digit c && digits s')%bool
  end.

Definition digit_run (s : string) : Prop := s <> "" /\ digits s = true.

(** The shape of the lists [NUMBER_PATTERN.split] returns. *)
Inductive comps : list string -> Prop :=
| comps_one (literal : string) : comps [literal]
| comps_cons (literal d : string) (l : list string) :
    digit_run d -> comps l -> comps (literal :: d :: l).

(** The names a generator yields for [k] numbers from [n] on. *)
Definition yielded (g : generator) (n : Z) (k : nat) : list string :=
  map (fun j => candidate g (n + Z.of_nat j * step g)) (seq 0 k).

(** What holds of every sequence the detector builds. *)
Definition detected (s : FileSequence) : Prop :=
  path s = "" /\ 0 <= first s /\ first s < last s.

(** The order of [sort]. *)
Definition le_str (a b : string) : Prop := String.leb a b = true.

(** Where a sequence of the detector comes from: an entry [entry], popped
    when the pool was [pool] and not above any name of it, whose numeric
    components [pre], tried first, had no neighbour, and whose component [i]
    gave the sequence. *)
Definition origin (maxint : Z) (s : FileSequence) : Prop :=
  exists (entry : string) (pool pool2 : list string) (pre : list Z) (i : Z)
         (post : list Z),
    range (Z.of_nat (List.length (split entry)) - 2) 0 (-2) = pre ++ i :: post
    /\ (forall j, In j pre ->
          exists n p, try_field maxint (split entry) j pool = Ok (pool, n, n, p))
    /\ try_field maxint (split entry) i pool
       = Ok (pool2, first s, last s, padding s)
    /\ first s <> last s
    /\ s = init "" (join (firstn (Z.to_nat i) (split entry)))
                   (join (skipn (Z.to_nat (i + 1)) (split entry)))
                   (first s) (last s) (padding s)
    /\ (forall x, In x pool -> le_str entry x).

(** An entry none of whose numeric components has a neighbour in the pool:
    neither the name of the next number nor that of the one before. *)
Definition no_neighbour (entry : string) (pool : list string) : Prop :=
  forall i,
    In i (range (Z.of_nat (List.length (split entry)) - 2) 0 (-2)) ->
    let c := nth (Z.to_nat i) (split entry) "" in
    let pad := if startswith c "0" then len c else 0 in
    let name := fun n =>
      join (set_item (split entry) (Z.to_nat i) (zfill (str n) pad)) in
    ~ In (name (int c + 1)) pool /\ ~ In (name (int c - 1)) pool.

(** The numbers of the digit runs of a name. *)
Definition counters (entry : string) : list Z :=
  map (fun i => int (nth (Z.to_nat i) (split entry) ""))
      (range (Z.of_nat (List.length (split entry)) - 2) 0 (-2)).

(** Text without braces. *)
Definition brace_free (s : string) : Prop :=
  forall c, In c (list_ascii_of_string s) -> c <> "{"%char /\ c <> "}"%char.


(** A string without a digit. *)
Fixpoint no_digit (s : string) : bool :=
  match s with
  | EmptyString => true
  | String c s' => (negb (is_digit c) && no_digit s')%bool
  end.

(** The lists [NUMBER_PATTERN.split] returns, more closely: the literal
    pieces have no digit, and only the first and the last of them can be
    empty, the runs of digits being maximal. *)
Inductive pieces : list string -> Prop :=
| pieces_one (literal : string) : no_digit literal = true -> pieces [literal]
| pieces_cons (literal d : string) (l : list string) :
    no_digit literal = true -> digit_run d -> pieces l ->
    List.length l = 1%nat \/ hd "" l <> "" ->
    pieces (literal :: d :: l).

Definition ends_without_digit (s : string) : Prop :=
  s = "" \/ exists (p : string) (c : ascii),
              s = (p ++ String c "")%string /\ is_digit c = false.

Definition starts_without_digit (s : string) : Prop :=
  match s with
  | EmptyString => True
  | String c _ => is_digit c = false
  end.

(** An entry none of whose numeric components gives a sequence with the
    pool: each leaves the pool and the two bounds as they are. *)
Definition alone (maxint : Z) (entry : string) (pool : list string) : Prop :=
  forall i,
    In i (range (Z.of_nat (List.length (split entry)) - 2) 0 (-2)) ->
    exists n p, try_field maxint (split entry) i pool = Ok (pool, n, n, p).

(** The other files of a run, each with the pool it was popped from: what
    comes after it in the list was in that pool. *)
Inductive lone (maxint : Z) : list string -> Prop :=
| lone_nil : lone maxint []
| lone_cons (entry : string) (rest pool : list string) :
    alone maxint entry pool ->
    (forall x, In x rest -> In x pool) ->
    (List.length rest <= List.length pool)%nat ->
    lone maxint rest ->
    lone maxint (entry :: rest).

(** The other files so far in the loop, each with the pool it was popped
    with: what came after it, and what is left, was in that pool. *)
Definition lone_so_far (maxint : Z) (st : state) : Prop :=
  forall A o B,
    other_files st = A ++ o :: B ->
    exists pool,
      alone maxint o pool
      /\ (forall x, In x (B ++ entries st) -> In x pool)
      /\ (List.length B + List.length (entries st) <= List.length pool)%nat.

(** * Properties *)

(** ** Strings and lists *)

Lemma append_nil_r (s : string) : (s ++ "")%string = s.
Proof. induction s as [|c s IH]; simpl; [reflexivity | now rewrite IH]. Qed.

Lemma append_assoc (s t u : string) : ((s ++ t) ++ u = s ++ (t ++ u))%string.
Proof. induction s as [|c s IH]; simpl; [reflexivity | now rewrite IH]. Qed.

Lemma length_append (s t : string) :
  String.length (s ++ t) = (String.length s + String.length t)%nat.
Proof. induction s as [|c s IH]; simpl; [reflexivity | now rewrite IH]. Qed.

Lemma len_append (s t : string) : len (s ++ t) = len s + len t.
Proof. unfold len. rewrite length_append. lia. Qed.

Lemma len_nonneg (s : string) : 0 <= len s.
Proof. unfold len. lia. Qed.

Lemma join_app (l1 l2 : list string) : join (l1 ++ l2) = (join l1 ++ join l2)%string.
Proof.
  induction l1 as [|x l1 IH]; simpl; [reflexivity|].
  fold (join (l1 ++ l2)). fold (join l1). now rewrite IH, append_assoc.
Qed.

Lemma join_cons (x : string) (l : list string) : join (x :: l) = (x ++ join l)%string.
Proof. reflexivity. Qed.

(** [c * n] for a one-character string is the list of [n] copies of it. *)
Lemma str_mul_char (c : ascii) (n : Z) :
  str_mul (String c "") n = string_of_list_ascii (repeat c (Z.to_nat n)).
Proof.
  unfold str_mul. induction (Z.to_nat n) as [|k IH]; simpl; [reflexivity|].
  fold (join (repeat (String c "") k)). now rewrite IH.
Qed.

Lemma length_string_of_list_ascii (l : list ascii) :
  String.length (string_of_list_ascii l) = List.length l.
Proof. induction l; simpl; auto. Qed.

Lemma len_str_mul_char (c : ascii) (n : Z) : len (str_mul (String c "") n) = Z.max 0 n.
Proof.
  rewrite str_mul_char. unfold len.
  rewrite length_string_of_list_ascii, repeat_length. lia.
Qed.

(** The width of a zero-filled string. *)
Lemma len_zfill (s : string) (width : Z) : len (zfill s width) = Z.max (len s) width.
Proof.
  unfold zfill. destruct (Z.leb_spec width (len s)) as [H|H]; [lia|].
  remember (width - len s) as k eqn:Hk.
  assert (Hm : len (str_mul "0" k) = k) by (rewrite len_str_mul_char; lia).
  destruct s as [|c rest].
  - change (len "") with 0 in *. lia.
  - assert (Hc : len (String c rest) = 1 + len rest) by (unfold len; cbn [String.length]; lia).
    destruct (is_sign c).
    + assert (Hd : len (String c (str_mul "0" k ++ rest))
                   = 1 + len (str_mul "0" k ++ rest)%string)
        by (unfold len; cbn [String.length]; lia).
      rewrite len_append in Hd. lia.
    + rewrite len_append. lia.
Qed.

Lemma zfill_short (s : string) (width : Z) : width <= len s -> zfill s width = s.
Proof. intros H. unfold zfill. now apply Z.leb_le in H as ->. Qed.

(** A string that does not start with a sign gets its zeros in front. *)
Lemma zfill_unsigned (s : string) (width : Z) :
  unsigned s -> len s < width ->
  zfill s width = (str_mul "0" (width - len s) ++ s)%string.
Proof.
  intros Hs H. unfold zfill. destruct (Z.leb_spec width (len s)); [lia|].
  destruct s as [|c rest]; simpl in *.
  - now rewrite append_nil_r.
  - now rewrite Hs.
Qed.

Lemma string_of_uint_unsigned (d : Decimal.uint) : unsigned (NilEmpty.string_of_uint d).
Proof. destruct d; simpl; auto. Qed.

Lemma str_unsigned (n : Z) : 0 <= n -> unsigned (str n).
Proof.
  intros H. unfold str. destruct n as [|p|p]; simpl; try lia; auto.
  unfold NilZero.string_of_uint.
  destruct (Pos.to_uint p); simpl; auto.
Qed.

(** ** The class [FileSequence] *)

Lemma filename_in_range (self : FileSequence) (number : Z) :
  first self <= number <= last self ->
  filename self number
  = Ok (head self ++ zfill (str number) (padding self) ++ tail self)%string.
Proof.
  intros [H1 H2]. unfold filename.
  apply Z.leb_le in H1 as ->. apply Z.leb_le in H2 as ->. simpl.
  now rewrite append_nil_r.
Qed.

Lemma filename_out_of_range (self : FileSequence) (number : Z) :
  number < first self \/ last self < number ->
  filename self number = Raise IndexError.
Proof.
  intros H. unfold filename.
  destruct (Z.leb_spec (first self) number), (Z.leb_spec number (last self));
    simpl; auto; lia.
Qed.

Lemma str_negative (n : Z) : n < 0 -> str n = String "-" (str (- n)).
Proof. intros H. destruct n as [|p|p]; [lia | lia | reflexivity]. Qed.

Lemma zfill_signed (c : ascii) (rest : string) (width : Z) :
  is_sign c = true -> len (String c rest) < width ->
  zfill (String c rest) width
  = String c (str_mul "0" (width - len (String c rest)) ++ rest).
Proof.
  intros Hc H. unfold zfill.
  destruct (Z.leb_spec width (len (String c rest))); [lia|].
  now rewrite Hc.
Qed.

(** C6. [filename(number)] is [head + zeroPad(number, padding) + tail] when
    [first <= number <= last] and raises [IndexError] otherwise, so it
    returns a name exactly on that range. The zero padding
    [str(number).zfill(padding)] is as wide as the wider of [padding] and the
    decimal form of [number], the sign counted; it is the decimal form
    itself when [padding] is 0 or not larger than that form (nothing is
    cut); otherwise, for [number >= 0], it is that form behind as many zeros
    as are missing, and for [number < 0] the minus sign comes first, then
    the missing zeros, then the digits of [- number]: one digit less than
    [padding]. *)
Theorem filename_contract (self : FileSequence) (number : Z) :
  (first self <= number <= last self ->
   filename self number
   = Ok (head self ++ zfill (str number) (padding self) ++ tail self)%string)
  /\ (number < first self \/ last self < number ->
      filename self number = Raise IndexError)
  /\ (forall name, filename self number = Ok name ->
      first self <= number <= last self)
  /\ len (zfill (str number) (padding self))
     = Z.max (len (str number)) (padding self)
  /\ (padding self = 0 -> zfill (str number) (padding self) = str number)
  /\ (padding self <= len (str number) ->
      zfill (str number) (padding self) = str number)
  /\ (0 <= number -> len (str number) < padding self ->
      zfill (str number) (padding self)
      = (string_of_list_ascii
           (repeat "0"%char (Z.to_nat (padding self - len (str number))))
         ++ str number)%string)
  /\ (number < 0 -> len (str number) < padding self ->
      str number = String "-" (str (- number))
      /\ zfill (str number) (padding self)
         = String "-"
             (string_of_list_ascii
                (repeat "0"%char (Z.to_nat (padding self - len (str number))))
              ++ str (- number))).
Proof.
  split; [now apply filename_in_range|].
  split; [apply filename_out_of_range|].
  split.
  { intros name H.
    destruct (Z.le_gt_cases (first self) number),
             (Z.le_gt_cases number (last self));
      try lia; rewrite filename_out_of_range in H by lia; discriminate. }
  split; [apply len_zfill|].
  split; [intros H; apply zfill_short; rewrite H; apply len_nonneg|].
  split; [apply zfill_short|].
  split.
  - intros Hn Hl. rewrite zfill_unsigned by (auto using str_unsigned).
    now rewrite str_mul_char.
  - intros Hn Hl. split; [now apply str_negative|].
    rewrite (str_negative number Hn) in *.
    rewrite zfill_signed by (reflexivity || assumption).
    now rewrite str_mul_char.
Qed.

Lemma filename_contract_witness :
  filename (init "" "a." ".ext" 1 20000 4) 7 = Ok "a.0007.ext"
  /\ filename (init "" "a." ".ext" 1 20000 4) 12345 = Ok "a.12345.ext"
  /\ filename (init "" "a." ".ext" 1 20000 4) 0 = Raise IndexError
  /\ zfill (str 7) 4 = "0007"
  /\ zfill (str (-3)) 4 = "-003".
Proof.
  pose proof (filename_contract (init "" "a." ".ext" 1 20000 4) 7) as H7.
  pose proof (filename_contract (init "" "a." ".ext" 1 20000 4) 12345) as H5.
  pose proof (filename_contract (init "" "a." ".ext" 1 20000 4) 0) as H0.
  pose proof (filename_contract (init "" "n" ".x" (-5) 5 4) (-3)) as Hm.
  split; [|split; [|split; [|split]]].
  - apply (proj1 H7). simpl; lia.
  - apply (proj1 H5). simpl; lia.
  - apply (proj1 (proj2 H0)). simpl; lia.
  - apply (proj1 (proj2 (proj2 (proj2 (proj2 (proj2 (proj2 H7))))))).
    + lia.
    + vm_compute. reflexivity.
  - apply (proj2 (proj2 (proj2 (proj2 (proj2 (proj2 (proj2 Hm))))))).
    + lia.
    + vm_compute. reflexivity.
Defined.

(** The padding of a negative number: in a sequence from -5 to 5 with
    padding 4 the name of -3 is ["n-003.x"]. Its counter is not the decimal
    form ["-3"] behind zeros, and it holds three digits, not four. *)
Lemma filename_negative_number :
  filename (init "" "n" ".x" (-5) 5 4) (-3) = Ok "n-003.x"
  /\ (forall k : nat,
        zfill (str (-3)) 4
        <> (string_of_list_ascii (repeat "0"%char k) ++ str (-3))%string)
  /\ List.length (filter is_digit (list_ascii_of_string (zfill (str (-3)) 4)))
     = 3%nat.
Proof.
  split; [vm_compute; reflexivity|]. split; [|vm_compute; reflexivity].
  intros k. change (zfill (str (-3)) 4) with "-003".
  destruct k; simpl; discriminate.
Qed.

(** C7. [__getitem__] on an integer index [k]: the name of [first + k] when
    [k >= 0], the name of [last - (-k) + 1] when [k < 0] (so that of [last]
    for [-1]); [IndexError] whenever the number so reached is outside of
    [first .. last]. *)
Theorem getitem_contract (self : FileSequence) (k : Z) :
  (0 <= k -> getitem self (KInt k) = filename self (first self + k))
  /\ (k < 0 -> getitem self (KInt k) = filename self (last self - (- k) + 1))
  /\ getitem self (KInt (-1)) = filename self (last self)
  /\ (forall n,
      n = (if 0 <=? k then first self + k else last self - (- k) + 1) ->
      n < first self \/ last self < n ->
      getitem self (KInt k) = Raise IndexError).
Proof.
  split; [|split; [|split]].
  - intros H. unfold getitem. now apply Z.leb_le in H as ->.
  - intros H. unfold getitem. apply Z.leb_gt in H as ->. f_equal. lia.
  - unfold getitem. simpl. f_equal. lia.
  - intros n -> H. unfold getitem.
    destruct (0 <=? k).
    + now apply filename_out_of_range.
    + replace (k * -1) with (- k) by lia. now apply filename_out_of_range.
Qed.

Lemma getitem_contract_witness :
  getitem (init "" "a." ".ext" 1 5 4) (KInt 2) = Ok "a.0003.ext"
  /\ getitem (init "" "a." ".ext" 1 5 4) (KInt (-2)) = Ok "a.0004.ext"
  /\ getitem (init "" "a." ".ext" 1 5 4) (KInt 5) = Raise IndexError.
Proof.
  pose proof (getitem_contract (init "" "a." ".ext" 1 5 4) 2) as H2.
  pose proof (getitem_contract (init "" "a." ".ext" 1 5 4) (-2)) as Hm.
  pose proof (getitem_contract (init "" "a." ".ext" 1 5 4) 5) as H5.
  split; [|split].
  - rewrite (proj1 H2) by lia. reflexivity.
  - rewrite (proj1 (proj2 Hm)) by lia. reflexivity.
  - apply (proj2 (proj2 (proj2 H5)) 6); [reflexivity | simpl; lia].
Defined.

Lemma len_self_ok (self : FileSequence) :
  first self <= last self + 1 -> len_self self = Ok (length self).
Proof.
  intros H. unfold len_self, length.
  destruct (Z.ltb_spec (last self - first self + 1) 0); [lia | reflexivity].
Qed.

(** C8. For a sequence with [first <= last], the field [padchars] of a
    template is the pad character [c] repeated [padding] times when
    [padding > 0] and one [c] when [padding == 0], and [format] puts that
    string in the place of [{padchars}]; for a sequence with head
    ["my_sequence."], tail [".ext"] and padding 4 the template
    ["{head}{padchars}{tail}"] gives ["my_sequence.####.ext"] with the
    default pad character. *)
Theorem format_padchars (self : FileSequence) (c : ascii) :
  first self <= last self ->
  exists d,
    values self (String c "") = Ok d
    /\ (0 < padding self ->
        lookup "padchars" d
        = Some (VStr (string_of_list_ascii (repeat c (Z.to_nat (padding self))))))
    /\ (padding self = 0 -> lookup "padchars" d = Some (VStr (String c "")))
    /\ (forall rest v,
          lookup "padchars" d = Some v ->
          format self ("{padchars}" ++ rest) (String c "")
          = subst (str_value v) (format self rest (String c "")))
    /\ (head self = "my_sequence." -> tail self = ".ext" -> padding self = 4 ->
        format self "{head}{padchars}{tail}" default_padchar
        = Some (Ok "my_sequence.####.ext")).
Proof.
  intros Hinv.
  assert (Hlen : len_self self = Ok (length self)) by (apply len_self_ok; lia).
  eexists. split; [unfold values; rewrite Hlen; reflexivity|].
  split; [|split; [|split]].
  - intros H. cbn [lookup String.eqb Ascii.eqb Bool.eqb]. cbv zeta.
    rewrite str_mul_char.
    destruct (Z.to_nat (padding self)) as [|n] eqn:E; [lia|]. reflexivity.
  - intros H. cbn [lookup String.eqb Ascii.eqb Bool.eqb]. rewrite H. reflexivity.
  - intros rest v Hv. unfold format, values. rewrite Hlen. cbn [bind].
    cbn [lookup String.eqb Ascii.eqb Bool.eqb] in Hv. injection Hv as <-.
    reflexivity.
  - intros Hh Ht Hp. unfold format, values. rewrite Hlen. cbn [bind].
    rewrite Hh, Ht, Hp. reflexivity.
Qed.

Lemma format_padchars_witness :
  exists d,
    values (init "" "my_sequence." ".ext" 1 5 4) "#" = Ok d
    /\ lookup "padchars" d = Some (VStr "####")
    /\ format (init "" "my_sequence." ".ext" 1 5 4) "{head}{padchars}{tail}" "#"
       = Some (Ok "my_sequence.####.ext").
Proof.
  destruct (format_padchars (init "" "my_sequence." ".ext" 1 5 4) "#")
    as (d & Hd & H1 & _ & _ & H4); [simpl; lia|].
  exists d. split; [exact Hd|]. split.
  - apply H1. simpl; lia.
  - apply H4; reflexivity.
Defined.

(** ** The pool of names *)

Lemma mem_In (x : string) (l : list string) : mem x l = true <-> In x l.
Proof.
  unfold mem. rewrite existsb_exists. split.
  - intros [y [Hy E]]. apply String.eqb_eq in E. now subst.
  - intros H. exists x. split; [assumption | apply String.eqb_refl].
Qed.

Lemma mem_not_In (x : string) (l : list string) : mem x l = false <-> ~ In x l.
Proof.
  rewrite <- mem_In. destruct (mem x l); split; congruence.
Qed.

Lemma remove_perm (x : string) (l : list string) :
  In x l -> Permutation l (x :: remove x l).
Proof.
  induction l as [|y l IH]; simpl; [contradiction|].
  intros H. destruct (String.eqb_spec x y) as [->|Hn]; [reflexivity|].
  destruct H as [H|H]; [congruence|].
  rewrite perm_swap. now constructor; apply IH.
Qed.

Lemma remove_length (x : string) (l : list string) :
  In x l -> List.length l = S (List.length (remove x l)).
Proof.
  intros H. apply remove_perm in H. now apply Permutation_length in H.
Qed.

Lemma remove_incl (x y : string) (l : list string) : In y (remove x l) -> In y l.
Proof.
  induction l as [|z l IH]; simpl; [contradiction|].
  destruct (String.eqb x z); simpl; intuition.
Qed.

Lemma remove_other (x y : string) (l : list string) :
  x <> y -> In y l -> In y (remove x l).
Proof.
  intros Hn. induction l as [|z l IH]; simpl; [contradiction|].
  destruct (String.eqb_spec x z) as [->|Hz]; simpl; intuition congruence.
Qed.

Lemma insert_perm (x : string) (l : list string) : Permutation (insert x l) (x :: l).
Proof.
  induction l as [|y l IH]; simpl; [reflexivity|].
  destruct (String.leb x y); [reflexivity|].
  rewrite perm_swap. now constructor.
Qed.

Lemma sort_perm (l : list string) : Permutation (sort l) l.
Proof.
  induction l as [|x l IH]; simpl; [constructor|].
  fold (sort l). rewrite insert_perm. now constructor.
Qed.

(** ** The two scans *)

Lemma yielded_S (g : generator) (n : Z) (k : nat) :
  yielded g n (S k) = candidate g n :: yielded g (n + step g) k.
Proof.
  unfold yielded. cbn [seq map]. f_equal.
  - f_equal. lia.
  - rewrite <- seq_shift, map_map. apply map_ext. intros j. f_equal. lia.
Qed.

(** What a scan does: it takes the names of [k] numbers in a row out of the
    pool, each in the [xrange] of the generator, and stops at the first
    number whose name is not in the pool, or at the end of the [xrange]. *)
Lemma extend_spec (g : generator) (fuel : nat) :
  forall n pool bound pool' bound',
    extend fuel g n pool bound = (pool', bound') ->
    exists k : nat,
      Permutation pool (yielded g n k ++ pool')
      /\ List.length pool = (k + List.length pool')%nat
      /\ bound' = (match k with O => bound | S _ => n + (Z.of_nat k - 1) * step g end)
      /\ (forall j, (j < k)%nat ->
            in_xrange (n + Z.of_nat j * step g) (stop g) (step g) = true)
      /\ (forall x, In x pool' -> In x pool)
      /\ (k = O -> pool' = pool).
Proof.
  induction fuel as [|fuel IH]; intros n pool bound pool' bound' H; simpl in H.
  - injection H as <- <-. exists O. simpl. repeat split; auto; lia.
  - destruct (in_xrange n (stop g) (step g)) eqn:Hr;
      [destruct (mem (candidate g n) pool) eqn:Hm|].
    + apply IH in H as (k & Hp & Hl & Hb & Hx & Hi & _).
      apply mem_In in Hm.
      exists (S k). rewrite yielded_S. repeat split; [| | | | |discriminate].
      * rewrite (remove_perm _ _ Hm). simpl. now constructor.
      * rewrite (remove_length _ _ Hm). lia.
      * subst bound'. destruct k; [lia|]. lia.
      * intros [|j] Hj.
        -- now replace (n + Z.of_nat 0 * step g) with n by lia.
        -- replace (n + Z.of_nat (S j) * step g)
             with (n + step g + Z.of_nat j * step g) by lia.
           apply Hx. lia.
      * intros x Hx'. eapply remove_incl; eauto.
    + injection H as <- <-. exists O. simpl. repeat split; auto; lia.
    + injection H as <- <-. exists O. simpl. repeat split; auto; lia.
Qed.

(** ** The components of a name *)

Lemma split_comps (s : string) : comps (split s).
Proof.
  induction s as [|c s IH]; simpl; [constructor|].
  destruct IH as [literal | literal d l Hd Hl]; destruct (is_digit c) eqn:Hc.
  - destruct literal; repeat constructor; simpl; try congruence; now rewrite Hc.
  - constructor.
  - destruct literal.
    + constructor; [|assumption]. destruct Hd as [_ Hd].
      split; [discriminate|]. simpl. now rewrite Hc, Hd.
    + constructor; [|now constructor].
      split; [discriminate|]. simpl. now rewrite Hc.
  - now constructor.
Qed.

Lemma join_split (s : string) : join (split s) = s.
Proof.
  induction s as [|c s IH]; simpl; [reflexivity|].
  destruct (split_comps s) as [literal | literal d l Hd Hl];
    destruct (is_digit c); simpl in *.
  - destruct literal; simpl in *; now rewrite <- IH.
  - now rewrite <- IH.
  - destruct literal; simpl in *; now rewrite <- IH.
  - now rewrite <- IH.
Qed.

Lemma comps_length (l : list string) :
  comps l -> exists m : nat, List.length l = (2 * m + 1)%nat.
Proof.
  induction 1 as [literal | literal d l Hd Hl [m Hm]].
  - now exists O.
  - exists (S m). simpl. rewrite Hm. lia.
Qed.

Lemma comps_nth (l : list string) :
  comps l -> forall j : nat,
    (2 * j + 1 < List.length l)%nat -> digit_run (nth (2 * j + 1) l "").
Proof.
  induction 1 as [literal | literal d l Hd Hl IH]; intros j Hj; simpl in Hj.
  - lia.
  - destruct j as [|j]; [exact Hd|].
    replace (2 * S j + 1)%nat with (S (S (2 * j + 1))) by lia.
    apply IH. lia.
Qed.

Lemma range_In (a b s i : Z) :
  In i (range a b s) ->
  exists k : nat, (k < range_count a b s)%nat /\ i = a + Z.of_nat k * s.
Proof.
  unfold range. rewrite in_map_iff. intros [k [<- Hk]].
  apply in_seq in Hk. exists k. split; [lia | reflexivity].
Qed.

(** The indices [range(len(components) - 2, 0, -2)] are those of the digit
    runs. *)
Lemma field_indices (l : list string) (i : Z) :
  comps l -> In i (range (Z.of_nat (List.length l) - 2) 0 (-2)) ->
  0 < i /\ (Z.to_nat i < List.length l)%nat /\ digit_run (nth (Z.to_nat i) l "").
Proof.
  intros Hl Hi. destruct (comps_length l Hl) as [m Hm].
  apply range_In in Hi as [k [Hk ->]].
  unfold range_count in Hk. simpl in Hk. rewrite Hm in *.
  replace (Z.of_nat (2 * m + 1) - 2 - 0 - -2 - 1) with (Z.of_nat m * 2) in Hk by lia.
  rewrite Z.div_mul in Hk by lia.
  assert (E : Z.to_nat (Z.of_nat (2 * m + 1) - 2 + Z.of_nat k * -2)
              = (2 * (m - 1 - k) + 1)%nat) by lia.
  rewrite E. split; [lia | split; [lia|]].
  apply comps_nth; [assumption | lia].
Qed.

Lemma join_nth (l : list string) (i : nat) :
  (i < List.length l)%nat ->
  join l = (join (firstn i l) ++ nth i l "" ++ join (skipn (S i) l))%string.
Proof.
  revert i. induction l as [|x l IH]; intros i Hi; simpl in Hi; [lia|].
  destruct i as [|i]; [reflexivity|].
  cbn [firstn skipn nth]. rewrite !join_cons, append_assoc. f_equal.
  apply IH. lia.
Qed.

Lemma join_set_item (l : list string) (i : nat) (x : string) :
  (i < List.length l)%nat ->
  join (set_item l i x)
  = (join (firstn i l) ++ x ++ join (skipn (S i) l))%string.
Proof.
  revert i. induction l as [|y l IH]; intros i Hi; simpl in Hi; [lia|].
  destruct i as [|i]; [reflexivity|].
  cbn [firstn skipn set_item]. rewrite !join_cons, append_assoc. f_equal.
  apply IH. lia.
Qed.

(** ** Digit runs as numbers *)

Lemma digits_uint (s : string) :
  digits s = true -> exists d, NilEmpty.uint_of_string s = Some d.
Proof.
  induction s as [|c s IH]; simpl; [now exists Decimal.Nil|].
  intros H. apply andb_prop in H as [Hc Hs].
  destruct (IH Hs) as [d ->].
  destruct c as [[|] [|] [|] [|] [|] [|] [|] [|]]; try discriminate Hc;
    eexists; reflexivity.
Qed.

Lemma digit_run_uint (c : string) :
  digit_run c ->
  exists d, d <> Decimal.Nil /\ NilEmpty.string_of_uint d = c
            /\ int c = Z.of_uint d.
Proof.
  intros [Hn Hd]. destruct (digits_uint c Hd) as [d E].
  exists d. repeat split.
  - intros ->. simpl in E. destruct c; [congruence|]. simpl in E.
    destruct (NilEmpty.uint_of_string c); [|discriminate].
    now apply uint_of_char_spec in E; intuition discriminate.
  - now apply NilEmpty.sus.
  - unfold int. now rewrite E.
Qed.

Lemma str_of_uint (d : Decimal.uint) :
  str (Z.of_uint d) = NilEmpty.string_of_uint (Decimal.unorm d).
Proof.
  unfold str. change (Z.of_uint d) with (Z.of_int (Decimal.Pos d)).
  rewrite DecimalZ.to_of. simpl. unfold NilZero.string_of_uint.
  pose proof (unorm_nonnil d). now destruct (Decimal.unorm d).
Qed.

Lemma of_uint_nonneg (d : Decimal.uint) : 0 <= Z.of_uint d.
Proof. unfold Z.of_uint. lia. Qed.

(** A digit run is its number in normal form behind some zeros. *)
Lemma string_of_uint_unorm (d : Decimal.uint) :
  d <> Decimal.Nil ->
  exists k : nat,
    NilEmpty.string_of_uint d
    = (string_of_list_ascii (repeat "0"%char k)
       ++ NilEmpty.string_of_uint (Decimal.unorm d))%string.
Proof.
  induction d as [|d IH|d _|d _|d _|d _|d _|d _|d _|d _|d _]; intros Hn;
    try (now exists O).
  rewrite unorm_D0. destruct d as [|d|d|d|d|d|d|d|d|d|d];
    try (destruct IH as [k Hk]; [discriminate|]; exists (S k);
         cbn [NilEmpty.string_of_uint repeat string_of_list_ascii append] in *;
         now rewrite Hk).
  now exists O.
Qed.

(** The counter of a name is what [zfill] makes of its number with the
    padding the detector reads off it. *)
Lemma zfill_digit_run (c : string) :
  digit_run c ->
  zfill (str (int c)) (if startswith c "0" then len c else 0) = c
  /\ 0 <= int c.
Proof.
  intros Hc. destruct (digit_run_uint c Hc) as (d & Hn & Hs & Hi).
  rewrite Hi. split; [|apply of_uint_nonneg].
  rewrite str_of_uint.
  destruct (string_of_uint_unorm d Hn) as [k Hk]. rewrite Hs in Hk.
  set (s := NilEmpty.string_of_uint (Decimal.unorm d)) in *.
  assert (Hl : len c = Z.of_nat k + len s).
  { rewrite Hk, len_append. unfold len at 1.
    now rewrite length_string_of_list_ascii, repeat_length. }
  destruct k as [|k].
  - simpl in Hk. rewrite <- Hk.
    destruct (startswith c "0"); apply zfill_short; [lia | apply len_nonneg].
  - assert (E : startswith c "0" = true).
    { rewrite Hk. unfold startswith. simpl.
      destruct (ascii_dec "0" "0"); [|congruence].
      now destruct (string_of_list_ascii (repeat "0"%char k) ++ s)%string. }
    rewrite E, zfill_unsigned.
    + rewrite str_mul_char. replace (Z.to_nat (len c - len s)) with (S k) by lia.
      now rewrite Hk.
    + apply string_of_uint_unsigned.
    + lia.
Qed.

(** ** Enumeration *)

(** [n] integers in a row from [a] on. *)
Lemma range_step_1 (a b : Z) :
  range a b 1 = map (fun k => a + Z.of_nat k) (seq 0 (Z.to_nat (b - a))).
Proof.
  unfold range, range_count. simpl.
  replace (b - a + 1 - 1) with (b - a) by lia. rewrite Z.div_1_r.
  apply map_ext. intros k. lia.
Qed.

Lemma seq_map_shift (f : nat -> Z) (n : nat) :
  map f (seq 0 (S n)) = f O :: map (fun k => f (S k)) (seq 0 n).
Proof. cbn [seq map]. now rewrite <- seq_shift, map_map. Qed.

(** The numbers of a sequence are the number of the entry and those met
    going up and going down. *)
Lemma numbers_perm (N : Z) (k1 k2 : nat) :
  Permutation
    (N :: map (fun j => N + 1 + Z.of_nat j * 1) (seq 0 k1)
       ++ map (fun j => N - 1 + Z.of_nat j * -1) (seq 0 k2))
    (map (fun k => N - Z.of_nat k2 + Z.of_nat k) (seq 0 (k2 + S k1))).
Proof.
  induction k2 as [|k2 IH].
  - simpl "+"%nat. rewrite seq_map_shift, List.app_nil_r.
    replace (N - Z.of_nat 0 + Z.of_nat 0) with N by lia.
    constructor. apply Permutation_refl'. apply map_ext. intros k. lia.
  - rewrite seq_S, map_app. simpl map at 3. simpl "+"%nat.
    rewrite seq_map_shift.
    replace (N - Z.of_nat (S k2) + Z.of_nat 0)
      with (N - 1 + Z.of_nat k2 * -1) by lia.
    rewrite List.app_assoc, List.app_comm_cons.
    rewrite <- Permutation_cons_append. constructor.
    rewrite IH.
    apply Permutation_refl'. apply map_ext. intros k. lia.
Qed.

Lemma mapM_filename (self : FileSequence) (l : list Z) :
  (forall n, In n l -> first self <= n <= last self) ->
  mapM (filename self) l
  = Ok (map (fun n => (head self ++ zfill (str n) (padding self) ++ tail self)%string) l).
Proof.
  induction l as [|n l IH]; intros H; simpl; [reflexivity|].
  rewrite filename_in_range by (apply H; now left). simpl.
  rewrite IH by (intros m Hm; apply H; now right). reflexivity.
Qed.

Lemma iter_ok (self : FileSequence) :
  iter self
  = Ok (map (fun n => (head self ++ zfill (str n) (padding self) ++ tail self)%string)
            (range (first self) (last self + 1) 1)).
Proof.
  unfold iter. apply mapM_filename. intros n Hn.
  rewrite range_step_1 in Hn. apply in_map_iff in Hn as [k [<- Hk]].
  apply in_seq in Hk. lia.
Qed.

(** ** One numeric component tried as the counter *)

(** The name the detector builds for the number [n] in place of the
    component [i]. *)
Lemma candidate_name (components : list string) (i : nat) (pad n : Z) :
  (i < List.length components)%nat ->
  join (set_item components i (zfill (str n) pad))
  = (join (firstn i components) ++ zfill (str n) pad
     ++ join (skipn (S i) components))%string.
Proof. apply join_set_item. Qed.

Section DetectorFacts.

Variable maxint : Z.

Lemma adjacent_files_ok (pool components : list string) (i pad : Z)
    (reverse : bool) (g : generator) :
  adjacent_files maxint pool components i pad reverse = Ok g ->
  candidate g
  = (fun n => join (set_item components (Z.to_nat i) (zfill (str n) pad)))
  /\ step g = (if reverse then -1 else 1)
  /\ start g = int (nth (Z.to_nat i) components "") + step g
  /\ stop g = (if reverse then 0
               else int (nth (Z.to_nat i) components "")
                    + Z.of_nat (List.length pool) + 1).
Proof.
  unfold adjacent_files, xrange. destruct reverse.
  - destruct (_ && _ && _)%bool; [|discriminate].
    simpl. intros [= <-]. simpl. repeat split; lia.
  - destruct (_ && _ && _)%bool; [|discriminate].
    simpl. intros [= <-]. simpl. repeat split; lia.
Qed.

Lemma run_generator_spec (g : generator) (pool pool' : list string)
    (bound bound' : Z) :
  run_generator g pool bound = (pool', bound') ->
  exists k : nat,
    Permutation pool (yielded g (start g) k ++ pool')
    /\ List.length pool = (k + List.length pool')%nat
    /\ bound' = (match k with
                 | O => bound
                 | S _ => start g + (Z.of_nat k - 1) * step g
                 end)
    /\ (forall j, (j < k)%nat ->
          in_xrange (start g + Z.of_nat j * step g) (stop g) (step g) = true)
    /\ (forall x, In x pool' -> In x pool)
    /\ (k = O -> pool' = pool).
Proof. apply extend_spec. Qed.

(** The outcome of [try_field]: the numbers [first .. last] around the
    number of the entry, whose names have left the pool. *)
Lemma try_field_spec (components : list string) (i : Z)
    (pool pool2 : list string) (f l p : Z) :
  0 < i -> (Z.to_nat i < List.length components)%nat ->
  digit_run (nth (Z.to_nat i) components "") ->
  try_field maxint components i pool = Ok (pool2, f, l, p) ->
  let s := init "" (join (firstn (Z.to_nat i) components))
                   (join (skipn (Z.to_nat (i + 1)) components)) f l p in
  let N := int (nth (Z.to_nat i) components "") in
  0 <= f /\ f <= N <= l
  /\ (f = l -> pool2 = pool)
  /\ (List.length pool = Z.to_nat (l - f) + List.length pool2)%nat
  /\ (forall x, In x pool2 -> In x pool)
  /\ filename s N = Ok (join components)
  /\ exists names,
       iter s = Ok names
       /\ Permutation (join components :: pool) (names ++ pool2).
Proof.
  intros Hi Hlen Hrun H. cbv zeta.
  destruct (zfill_digit_run _ Hrun) as [Hz HN].
  unfold try_field in H.
  set (c := nth (Z.to_nat i) components "") in *.
  set (pad := if startswith c "0" then len c else 0) in *.
  destruct (adjacent_files maxint pool components i pad false) as [up|] eqn:Eup;
    cbn [bind] in H; [|discriminate].
  destruct (run_generator up pool (int c)) as [pool1 l1] eqn:Er1.
  destruct (adjacent_files maxint pool1 components i pad true) as [down|] eqn:Edn;
    cbn [bind] in H; [|discriminate].
  destruct (run_generator down pool1 (int c)) as [pool2' f1] eqn:Er2.
  injection H as -> -> -> <-.
  apply adjacent_files_ok in Eup as (Hc1 & Hs1 & Hst1 & _).
  apply adjacent_files_ok in Edn as (Hc2 & Hs2 & Hst2 & Hstop2).
  fold c in Hst1, Hst2.
  apply run_generator_spec in Er1 as (k1 & Hp1 & Hl1 & Hb1 & _ & Hin1 & Hz1).
  apply run_generator_spec in Er2 as (k2 & Hp2 & Hl2 & Hb2 & Hx2 & Hin2 & Hz2).
  rewrite Hst1, Hs1 in Hb1. rewrite Hst2, Hs2 in Hb2.
  assert (El : l = int c + Z.of_nat k1) by (destruct k1; lia).
  assert (Ef : f = int c - Z.of_nat k2) by (destruct k2; lia).
  assert (Hf : 0 <= f).
  { destruct k2 as [|k2]; [lia|].
    specialize (Hx2 k2 ltac:(lia)). rewrite Hstop2, Hs2, Hst2, Hs2 in Hx2.
    unfold in_xrange in Hx2. simpl in Hx2. lia. }
  set (hd := join (firstn (Z.to_nat i) components)).
  set (tl := join (skipn (Z.to_nat (i + 1)) components)).
  assert (Etl : tl = join (skipn (S (Z.to_nat i)) components))
    by (unfold tl; do 2 f_equal; lia).
  set (name := fun n => (hd ++ zfill (str n) pad ++ tl)%string).
  assert (Hname1 : forall n, candidate up n = name n).
  { intros n. rewrite Hc1. unfold name. rewrite Etl. now apply candidate_name. }
  assert (Hname2 : forall n, candidate down n = name n).
  { intros n. rewrite Hc2. unfold name. rewrite Etl. now apply candidate_name. }
  assert (Hentry : join components = name (int c)).
  { unfold name. rewrite Hz, Etl. now apply join_nth. }
  split; [exact Hf|]. split; [lia|]. split.
  { intros E. assert (k1 = O) by lia. assert (k2 = O) by lia.
    rewrite Hz2, Hz1; auto. }
  split; [lia|]. split; [auto|]. split.
  { rewrite Hentry. rewrite filename_in_range by (simpl; lia). reflexivity. }
  eexists. split; [apply iter_ok|].
  cbn [first last head tail padding init]. fold hd tl.
  change (fun n => (hd ++ zfill (str n) pad ++ tl)%string) with name.
  set (A := map (fun j => int c + 1 + Z.of_nat j * 1) (seq 0 k1)).
  set (B := map (fun j => int c - 1 + Z.of_nat j * -1) (seq 0 k2)).
  assert (HA : yielded up (start up) k1 = map name A).
  { unfold yielded, A. rewrite map_map. apply map_ext. intros j.
    now rewrite Hname1, Hst1, Hs1. }
  assert (HB : yielded down (start down) k2 = map name B).
  { unfold yielded, B. rewrite map_map. apply map_ext. intros j.
    rewrite Hname2, Hst2, Hs2. f_equal. }
  assert (HR : range f (l + 1) 1
               = map (fun k => int c - Z.of_nat k2 + Z.of_nat k)
                     (seq 0 (k2 + S k1))).
  { rewrite range_step_1. replace (Z.to_nat (l + 1 - f)) with (k2 + S k1)%nat by lia.
    apply map_ext. intros k. lia. }
  rewrite HR, Hentry, Hp1, Hp2, HA, HB.
  apply Permutation_trans with (map name (int c :: A ++ B) ++ pool2).
  - cbn [map app]. rewrite map_app, <- List.app_assoc. reflexivity.
  - apply Permutation_app_tail, Permutation_map, numbers_perm.
Qed.

(** The loop over the numeric components: either no component has a
    neighbour and the pool is as it was, or a sequence of two names or more
    is found, whose names are the entry and names taken out of the pool. *)
Lemma try_fields_spec (components : list string) :
  comps components ->
  forall indices pool pool' sequence,
    (forall i, In i indices ->
       In i (range (Z.of_nat (List.length components) - 2) 0 (-2))) ->
    try_fields maxint components indices pool = Ok (pool', sequence) ->
    match sequence with
    | None => pool' = pool
    | Some s =>
        detected s
        /\ (List.length pool' < List.length pool)%nat
        /\ (forall x, In x pool' -> In x pool)
        /\ exists names,
             iter s = Ok names
             /\ Permutation (join components :: pool) (names ++ pool')
    end.
Proof.
  intros Hc. induction indices as [|i indices IH];
    intros pool pool' sequence Hin H; simpl in H.
  - now injection H as <- <-.
  - destruct (try_field maxint components i pool) as [[[[pool2 f] l] p]|] eqn:E;
      cbn [bind] in H; [|discriminate].
    destruct (field_indices components i Hc (Hin i (or_introl eq_refl)))
      as (Hi & Hlen & Hrun).
    pose proof (try_field_spec components i pool pool2 f l p Hi Hlen Hrun E)
      as (Hf & HN & Hsame & Hl & Hincl & _ & names & Hnames & Hperm).
    destruct (Z.eqb_spec (f - l) 0) as [Hz|Hz]; cbn [negb] in H.
    + rewrite (Hsame ltac:(lia)) in H.
      apply IH in H; [assumption|]. intros j Hj. apply Hin. now right.
    + injection H as <- <-. split; [|split; [|split]].
      * unfold detected. simpl. repeat split; lia.
      * lia.
      * exact Hincl.
      * now exists names.
Qed.

Lemma mapM_app {A B : Type} (f : A -> result B) (l1 l2 : list A)
    (r1 r2 : list B) :
  mapM f l1 = Ok r1 -> mapM f l2 = Ok r2 -> mapM f (l1 ++ l2) = Ok (r1 ++ r2).
Proof.
  revert r1. induction l1 as [|a l1 IH]; intros r1 H1 H2; simpl in *.
  - now injection H1 as <-.
  - destruct (f a) as [b|]; cbn [bind] in *; [|discriminate].
    destruct (mapM f l1) as [bs|]; cbn [bind] in *; [|discriminate].
    injection H1 as <-. now rewrite (IH bs eq_refl H2).
Qed.

Lemma truth_detected (s : FileSequence) : detected s -> truth s = Ok true.
Proof.
  intros (_ & _ & H). unfold truth. rewrite len_self_ok by lia. cbn [bind].
  unfold length. destruct (Z.eqb_spec (last s - first s + 1) 0); [lia|].
  reflexivity.
Qed.

(** The loop [while entries]: it ends with an empty pool; the sequences are
    detected ones; and the names of the sequences, the other files and the
    pool, taken together, stay the same. *)
Lemma while_entries_spec (fuel : nat) :
  forall st st',
    while_entries maxint fuel st = Ok st' ->
    (List.length (entries st) <= fuel)%nat ->
    Forall detected (sequences st) ->
    entries st' = []
    /\ Forall detected (sequences st')
    /\ forall names,
         mapM iter (sequences st) = Ok names ->
         exists names',
           mapM iter (sequences st') = Ok names'
           /\ Permutation (List.concat names ++ other_files st ++ entries st)
                          (List.concat names' ++ other_files st').
Proof.
  induction fuel as [|fuel IH]; intros st st' H Hfuel Hdet.
  - simpl in H. injection H as <-.
    assert (E : entries st = []) by (destruct (entries st); simpl in *; [auto | lia]).
    split; [exact E|]. split; [exact Hdet|].
    intros names Hn. exists names. split; [exact Hn|].
    now rewrite E, List.app_nil_r.
  - simpl in H. destruct (entries st) as [|entry pool] eqn:E.
    + injection H as <-. split; [exact E|]. split; [exact Hdet|].
      intros names Hn. exists names. split; [exact Hn|].
      now rewrite List.app_nil_r.
    + destruct (try_fields maxint (split entry) _ pool)
        as [[pool' sequence]|] eqn:Et; cbn [bind] in H; [|discriminate].
      pose proof (try_fields_spec (split entry) (split_comps entry) _ _ _ _
                    (fun i Hi => Hi) Et) as Hs.
      rewrite join_split in Hs. simpl in Hfuel.
      destruct sequence as [s|].
      * destruct Hs as (Hd & Hlen & _ & ns & Hns & Hperm).
        rewrite (truth_detected s Hd) in H. cbn [bind] in H.
        apply IH in H; cbn [entries sequences other_files] in *;
          [|lia|apply Forall_app; split; [assumption | now constructor]].
        destruct H as (He & Hd' & Hp). split; [exact He|]. split; [exact Hd'|].
        intros names Hn.
        assert (Hn' : mapM iter (sequences st ++ [s]) = Ok (names ++ [ns])).
        { apply mapM_app; [assumption|]. simpl. now rewrite Hns. }
        destruct (Hp _ Hn') as (names' & Hnames' & Hperm').
        exists names'. split; [exact Hnames'|].
        rewrite <- Hperm'. rewrite concat_app. simpl List.concat.
        rewrite List.app_nil_r, <- !List.app_assoc.
        apply Permutation_app_head.
        rewrite (Permutation_app_comm ns), <- List.app_assoc.
        apply Permutation_app_head.
        rewrite (Permutation_app_comm pool' ns). exact Hperm.
      * subst pool'. cbn [bind] in H.
        apply IH in H; cbn [entries sequences other_files] in *; [|lia|assumption].
        destruct H as (He & Hd' & Hp). split; [exact He|]. split; [exact Hd'|].
        intros names Hn. destruct (Hp _ Hn) as (names' & Hnames' & Hperm').
        exists names'. split; [exact Hnames'|].
        rewrite <- Hperm', <- !List.app_assoc. reflexivity.
Qed.

(** [find_in_list_run] on a list: what is left of the list, and the two
    lists returned. *)
Lemma find_in_list_run_spec (entries_ : list string) (st : state) :
  find_in_list_run maxint entries_ = Ok st ->
  entries st = []
  /\ Forall detected (sequences st)
  /\ exists names,
       mapM iter (sequences st) = Ok names
       /\ Permutation (List.concat names ++ other_files st) entries_.
Proof.
  intros H. unfold find_in_list_run in H.
  apply while_entries_spec in H; cbn [entries sequences other_files] in *.
  - destruct H as (He & Hd & Hp). split; [exact He|]. split; [exact Hd|].
    destruct (Hp [] eq_refl) as (names & Hn & Hperm).
    exists names. split; [exact Hn|].
    rewrite <- Hperm. simpl. apply sort_perm.
  - now rewrite (Permutation_length (sort_perm entries_)).
  - constructor.
Qed.

Lemma find_in_list_inv (entries_ : list string)
    (seqs : list FileSequence) (others : list string) :
  find_in_list maxint entries_ = Ok (seqs, others) ->
  exists st, find_in_list_run maxint entries_ = Ok st
             /\ sequences st = seqs /\ other_files st = others.
Proof.
  unfold find_in_list. destruct (find_in_list_run maxint entries_) as [st|];
    cbn [bind]; [|discriminate].
  intros [= <- <-]. now exists st.
Qed.

End DetectorFacts.

(** ** A larger [sys.maxint] changes no outcome *)

Section Monotone.

Variables maxint maxint' : Z.
Hypothesis Hle : maxint <= maxint'.

Lemma is_long_mono (n : Z) : is_long maxint n = true -> is_long maxint' n = true.
Proof. unfold is_long. rewrite !andb_true_iff, !Z.leb_le. lia. Qed.

Lemma xrange_mono (a b s : Z) (r : Z * Z * Z) :
  xrange maxint a b s = Ok r -> xrange maxint' a b s = Ok r.
Proof.
  unfold xrange.
  destruct (is_long maxint a) eqn:Ha, (is_long maxint b) eqn:Hb,
           (is_long maxint s) eqn:Hs; simpl; try discriminate.
  now rewrite !is_long_mono.
Qed.

Lemma adjacent_files_mono (pool components : list string) (i pad : Z)
    (reverse : bool) (g : generator) :
  adjacent_files maxint pool components i pad reverse = Ok g ->
  adjacent_files maxint' pool components i pad reverse = Ok g.
Proof.
  unfold adjacent_files. destruct reverse.
  - destruct (xrange maxint _ _ _) as [r|] eqn:E; [|discriminate].
    now rewrite (xrange_mono _ _ _ _ E).
  - destruct (xrange maxint _ _ _) as [r|] eqn:E; [|discriminate].
    now rewrite (xrange_mono _ _ _ _ E).
Qed.

Lemma try_field_mono (components : list string) (i : Z) (pool : list string)
    (r : list string * Z * Z * Z) :
  try_field maxint components i pool = Ok r ->
  try_field maxint' components i pool = Ok r.
Proof.
  unfold try_field.
  destruct (adjacent_files maxint pool components i _ false) as [up|] eqn:Eu;
    cbn [bind]; [|discriminate].
  rewrite (adjacent_files_mono _ _ _ _ _ _ Eu). cbn [bind].
  destruct (run_generator up pool _) as [pool1 l].
  destruct (adjacent_files maxint pool1 components i _ true) as [down|] eqn:Ed;
    cbn [bind]; [|discriminate].
  now rewrite (adjacent_files_mono _ _ _ _ _ _ Ed).
Qed.

Lemma try_fields_mono (components : list string) (indices : list Z) :
  forall pool r,
    try_fields maxint components indices pool = Ok r ->
    try_fields maxint' components indices pool = Ok r.
Proof.
  induction indices as [|i indices IH]; intros pool r; simpl; [auto|].
  destruct (try_field maxint components i pool) as [[[[pool2 f] l] p]|] eqn:E;
    cbn [bind]; [|discriminate].
  rewrite (try_field_mono _ _ _ _ E). cbn [bind].
  destruct (negb (f - l =? 0)); auto.
Qed.

Lemma while_entries_mono (fuel : nat) :
  forall st st',
    while_entries maxint fuel st = Ok st' ->
    while_entries maxint' fuel st = Ok st'.
Proof.
  induction fuel as [|fuel IH]; intros st st'; simpl; [auto|].
  destruct (entries st) as [|entry pool]; [auto|].
  destruct (try_fields maxint (split entry) _ pool) as [[pool' sequence]|] eqn:E;
    cbn [bind]; [|discriminate].
  rewrite (try_fields_mono _ _ _ _ E). cbn [bind].
  destruct (match sequence with Some s => truth s | None => Ok false end)
    as [keep|]; cbn [bind]; [|discriminate].
  destruct sequence as [s|], keep; apply IH.
Qed.

Lemma find_in_list_run_mono (entries_ : list string) (st : state) :
  find_in_list_run maxint entries_ = Ok st ->
  find_in_list_run maxint' entries_ = Ok st.
Proof. apply while_entries_mono. Qed.

Lemma find_in_list_mono (entries_ : list string)
    (r : list FileSequence * list string) :
  find_in_list maxint entries_ = Ok r ->
  find_in_list maxint' entries_ = Ok r.
Proof.
  unfold find_in_list.
  destruct (find_in_list_run maxint entries_) as [st|] eqn:E;
    cbn [bind]; [|discriminate].
  now rewrite (find_in_list_run_mono _ _ E).
Qed.

End Monotone.

(** ** The order of the names *)

Lemma le_str_refl (a : string) : le_str a a.
Proof.
  unfold le_str. destruct (String.leb_total a a); assumption.
Qed.

Lemma le_str_cons (a b : ascii) (s t : string) :
  le_str (String a s) (String b t)
  <-> (N_of_ascii a < N_of_ascii b)%N
      \/ (N_of_ascii a = N_of_ascii b /\ le_str s t).
Proof.
  unfold le_str, String.leb. cbn [String.compare]. unfold Ascii.compare.
  destruct (N.compare_spec (N_of_ascii a) (N_of_ascii b)) as [E|E|E].
  - split; [now right | intros [H|[_ H]]; [lia | exact H]].
  - split; [now left | reflexivity].
  - split; [discriminate | intros [H|[H _]]; lia].
Qed.

Lemma le_str_trans (a b c : string) : le_str a b -> le_str b c -> le_str a c.
Proof.
  revert b c. induction a as [|x a IH]; intros [|y b] [|z c]; try easy.
  rewrite !le_str_cons. intros [H1|[H1 H1']] [H2|[H2 H2']].
  - left; lia.
  - left; lia.
  - left; lia.
  - right. split; [lia | eauto].
Qed.

Lemma le_str_antisym (a b : string) : le_str a b -> le_str b a -> a = b.
Proof. apply String.leb_antisym. Qed.

Lemma insert_sorted (x : string) (l : list string) :
  StronglySorted le_str l -> StronglySorted le_str (insert x l).
Proof.
  induction 1 as [|y l Hl IH Hy]; simpl.
  - repeat constructor.
  - destruct (String.leb x y) eqn:E.
    + constructor; [now constructor|]. constructor; [exact E|].
      eapply Forall_impl; [|exact Hy]. intros z Hz.
      eapply le_str_trans; eauto.
    + constructor; [exact IH|].
      assert (Hyx : le_str y x).
      { destruct (String.leb_total x y) as [H|H]; [congruence | exact H]. }
      apply Forall_forall. intros z Hz.
      apply (Permutation_in _ (insert_perm x l)) in Hz as [<-|Hz];
        [exact Hyx|]. rewrite Forall_forall in Hy. auto.
Qed.

Lemma sort_sorted (l : list string) : StronglySorted le_str (sort l).
Proof.
  induction l as [|x l IH]; simpl; [constructor | now apply insert_sorted].
Qed.

Lemma remove_sorted (x : string) (l : list string) :
  StronglySorted le_str l -> StronglySorted le_str (remove x l).
Proof.
  induction 1 as [|y l Hl IH Hy]; simpl; [constructor|].
  destruct (String.eqb x y); [exact Hl|].
  constructor; [exact IH|].
  apply Forall_forall. intros z Hz. rewrite Forall_forall in Hy.
  eauto using remove_incl.
Qed.

Lemma extend_sorted (g : generator) (fuel : nat) :
  forall n pool bound,
    StronglySorted le_str pool ->
    StronglySorted le_str (fst (extend fuel g n pool bound)).
Proof.
  induction fuel as [|fuel IH]; intros n pool bound H; simpl; [exact H|].
  destruct (in_xrange n (stop g) (step g)); [|exact H].
  destruct (mem (candidate g n) pool); [|exact H].
  apply IH. now apply remove_sorted.
Qed.

(** The least name of a sorted list comes first. *)
Lemma sort_least (l : list string) (x : string) :
  In x l -> (forall y, In y l -> le_str x y) ->
  exists rest, sort l = x :: rest.
Proof.
  intros Hx Hmin. pose proof (sort_sorted l) as Hs.
  pose proof (sort_perm l) as Hp.
  destruct (sort l) as [|h t].
  - apply Permutation_nil in Hp. subst. contradiction.
  - exists t. f_equal.
    inversion Hs as [|h' t' _ Hh]; subst. rewrite Forall_forall in Hh.
    assert (Hhl : In h l) by (apply (Permutation_in _ Hp); now left).
    apply (Permutation_in _ (Permutation_sym Hp)) in Hx as [E|Hx]; [exact E|].
    apply le_str_antisym; auto.
Qed.

(** ** Names are told apart by their numbers *)

Lemma int_zero_cons (s : string) : int (String "0" s) = int s.
Proof.
  unfold int. cbn [NilEmpty.uint_of_string].
  destruct (NilEmpty.uint_of_string s); reflexivity.
Qed.

Lemma int_zeros (k : nat) (s : string) :
  int (string_of_list_ascii (repeat "0"%char k) ++ s) = int s.
Proof.
  induction k as [|k IH]; [reflexivity|].
  cbn [repeat string_of_list_ascii append]. now rewrite int_zero_cons.
Qed.

Lemma int_str (n : Z) : 0 <= n -> int (str n) = n.
Proof.
  intros H. destruct n as [|p|p]; [reflexivity | | lia].
  unfold str, int. cbn [Z.to_int NilZero.string_of_int].
  unfold NilZero.string_of_uint.
  pose proof (DecimalPos.Unsigned.to_uint_nonnil p) as Hn.
  destruct (Pos.to_uint p) eqn:E; try congruence;
    rewrite <- E, NilEmpty.usu; unfold Z.of_uint;
    now rewrite DecimalPos.Unsigned.of_to.
Qed.

Lemma int_zfill_str (n pad : Z) : 0 <= n -> int (zfill (str n) pad) = n.
Proof.
  intros H. destruct (Z.le_gt_cases pad (len (str n))) as [Hl|Hl].
  - rewrite zfill_short by assumption. now apply int_str.
  - rewrite zfill_unsigned by (auto using str_unsigned; lia).
    rewrite str_mul_char, int_zeros. now apply int_str.
Qed.

Lemma append_inj_l (s a b : string) : (s ++ a = s ++ b)%string -> a = b.
Proof. induction s as [|c s IH]; simpl; [auto | intros [= H]; auto]. Qed.

Lemma append_inj_same_length (a b t u : string) :
  String.length a = String.length b -> (a ++ t = b ++ u)%string -> a = b.
Proof.
  revert b. induction a as [|c a IH]; intros [|d b] Hl H; simpl in *;
    try discriminate; [reflexivity|].
  injection H as -> H. f_equal. apply IH; [lia | exact H].
Qed.

Lemma append_inj_r (a b t : string) : (a ++ t = b ++ t)%string -> a = b.
Proof.
  intros H. apply (append_inj_same_length a b t t); [|exact H].
  apply (f_equal String.length) in H. rewrite !length_append in H. lia.
Qed.

(** Two numbers with the same name are the same number. *)
Lemma name_inj (hd tl : string) (pad n m : Z) :
  0 <= n -> 0 <= m ->
  (hd ++ zfill (str n) pad ++ tl = hd ++ zfill (str m) pad ++ tl)%string ->
  n = m.
Proof.
  intros Hn Hm H. apply append_inj_l, append_inj_r in H.
  rewrite <- (int_zfill_str n pad Hn), <- (int_zfill_str m pad Hm).
  now rewrite H.
Qed.

(** ** The scans, from what is in the pool *)

Lemma extend_miss (g : generator) (fuel : nat) (n : Z) (pool : list string)
    (bound : Z) :
  (in_xrange n (stop g) (step g) && mem (candidate g n) pool)%bool = false ->
  extend fuel g n pool bound = (pool, bound).
Proof.
  destruct fuel as [|fuel]; [reflexivity|]. simpl.
  destruct (in_xrange n (stop g) (step g)); [|reflexivity].
  destruct (mem (candidate g n) pool); [discriminate | reflexivity].
Qed.

Lemma extend_first (g : generator) (fuel : nat) (n : Z)
    (pool pool' : list string) (bound bound' : Z) :
  extend (S fuel) g n pool bound = (pool', bound') ->
  List.length pool' = List.length pool ->
  (in_xrange n (stop g) (step g) && mem (candidate g n) pool)%bool = false.
Proof.
  simpl. destruct (in_xrange n (stop g) (step g)); [|reflexivity].
  destruct (mem (candidate g n) pool) eqn:Hm; [|reflexivity].
  intros H Hl. apply extend_spec in H as (k & _ & Hk & _).
  apply mem_In, remove_length in Hm. lia.
Qed.

(** A scan that meets [k] names of the pool in a row, and then a number
    that is out of the [xrange] or whose name is not in the pool, takes
    these [k] names. *)
Lemma extend_hits (g : generator) (k : nat) :
  forall fuel n pool bound,
    (k < fuel)%nat ->
    (forall j, (j < k)%nat ->
       in_xrange (n + Z.of_nat j * step g) (stop g) (step g) = true) ->
    (forall j, (j < k)%nat -> In (candidate g (n + Z.of_nat j * step g)) pool) ->
    (forall j j', (j < j' < k)%nat ->
       candidate g (n + Z.of_nat j * step g)
       <> candidate g (n + Z.of_nat j' * step g)) ->
    (in_xrange (n + Z.of_nat k * step g) (stop g) (step g) = false
     \/ ~ In (candidate g (n + Z.of_nat k * step g)) pool) ->
    exists pool',
      extend fuel g n pool bound
      = (pool', match k with
                | O => bound
                | S _ => n + (Z.of_nat k - 1) * step g
                end)
      /\ Permutation pool (yielded g n k ++ pool').
Proof.
  induction k as [|k IH]; intros fuel n pool bound Hfuel Hr Hin Hd Hend.
  - exists pool. split; [|reflexivity]. apply extend_miss.
    replace (n + Z.of_nat 0 * step g) with n in Hend by lia.
    destruct Hend as [->|Hn]; [reflexivity|].
    apply mem_not_In in Hn. rewrite Hn. apply andb_false_r.
  - destruct fuel as [|fuel]; [lia|]. cbn [extend].
    pose proof (Hr O ltac:(lia)) as Hr0. pose proof (Hin O ltac:(lia)) as Hin0.
    replace (n + Z.of_nat 0 * step g) with n in Hr0, Hin0 by lia.
    rewrite Hr0. rewrite (proj2 (mem_In _ _) Hin0).
    assert (Hshift : forall j, n + step g + Z.of_nat j * step g
                               = n + Z.of_nat (S j) * step g) by (intros; lia).
    destruct (IH fuel (n + step g) (remove (candidate g n) pool) n)
      as (pool' & He & Hp).
    + lia.
    + intros j Hj. rewrite Hshift. apply Hr. lia.
    + intros j Hj. rewrite Hshift. apply remove_other; [|apply Hin; lia].
      replace n with (n + Z.of_nat 0 * step g) at 1 by lia. apply Hd. lia.
    + intros j j' Hj. rewrite !Hshift. apply Hd. lia.
    + rewrite Hshift. destruct Hend as [H|H]; [now left | right].
      intros Hc. apply H. eapply remove_incl; eauto.
    + exists pool'. split.
      * rewrite He. f_equal.
        destruct k; [simpl; ring | rewrite !Nat2Z.inj_succ; unfold Z.succ; ring].
      * rewrite yielded_S, (remove_perm _ _ Hin0). simpl. now constructor.
Qed.

Section RoundTripFacts.

Variable maxint : Z.

Lemma adjacent_files_up (pool components : list string) (i pad : Z) :
  0 <= int (nth (Z.to_nat i) components "") ->
  (exists g, adjacent_files maxint pool components i pad false = Ok g)
  <-> int (nth (Z.to_nat i) components "") + Z.of_nat (List.length pool) + 1
      <= maxint.
Proof.
  intros HN. unfold adjacent_files, xrange, is_long.
  set (N := int (nth (Z.to_nat i) components "")) in *.
  destruct (Z.leb_spec (- maxint - 1) (N + 1)),
           (Z.leb_spec (N + 1) maxint),
           (Z.leb_spec (- maxint - 1) (N + Z.of_nat (List.length pool) + 1)),
           (Z.leb_spec (N + Z.of_nat (List.length pool) + 1) maxint),
           (Z.leb_spec (- maxint - 1) 1), (Z.leb_spec 1 maxint);
    cbn [andb bind]; split; try lia; try (intros [g Hg]; discriminate);
    intros _; eexists; reflexivity.
Qed.

Lemma adjacent_files_down (pool components : list string) (i pad : Z) :
  0 <= int (nth (Z.to_nat i) components "") ->
  (exists g, adjacent_files maxint pool components i pad true = Ok g)
  <-> 0 <= maxint /\ int (nth (Z.to_nat i) components "") - 1 <= maxint.
Proof.
  intros HN. unfold adjacent_files, xrange, is_long.
  set (N := int (nth (Z.to_nat i) components "")) in *.
  destruct (Z.leb_spec (- maxint - 1) (N - 1)),
           (Z.leb_spec (N - 1) maxint),
           (Z.leb_spec (- maxint - 1) 0), (Z.leb_spec 0 maxint),
           (Z.leb_spec (- maxint - 1) (-1)), (Z.leb_spec (-1) maxint);
    cbn [andb bind]; split; try lia; try (intros [g Hg]; discriminate);
    intros _; eexists; reflexivity.
Qed.

Lemma try_field_intro (components : list string) (i : Z)
    (pool pool1 pool2 : list string) (up down : generator) (f l : Z) :
  let c := nth (Z.to_nat i) components "" in
  let pad := if startswith c "0" then len c else 0 in
  adjacent_files maxint pool components i pad false = Ok up ->
  run_generator up pool (int c) = (pool1, l) ->
  adjacent_files maxint pool1 components i pad true = Ok down ->
  run_generator down pool1 (int c) = (pool2, f) ->
  try_field maxint components i pool = Ok (pool2, f, l, pad).
Proof.
  intros c pad Hu Hr1 Hd Hr2. unfold try_field. fold c. fold pad.
  rewrite Hu. cbn [bind]. rewrite Hr1, Hd. cbn [bind]. now rewrite Hr2.
Qed.

Lemma try_field_inv (components : list string) (i : Z)
    (pool pool2 : list string) (f l p : Z) :
  try_field maxint components i pool = Ok (pool2, f, l, p) ->
  let c := nth (Z.to_nat i) components "" in
  p = (if startswith c "0" then len c else 0)
  /\ exists up down pool1,
       adjacent_files maxint pool components i p false = Ok up
       /\ run_generator up pool (int c) = (pool1, l)
       /\ adjacent_files maxint pool1 components i p true = Ok down
       /\ run_generator down pool1 (int c) = (pool2, f).
Proof.
  intros H c. unfold try_field in H. fold c in H.
  set (pad := if startswith c "0" then len c else 0) in *.
  destruct (adjacent_files maxint pool components i pad false) as [up|] eqn:Eup;
    cbn [bind] in H; [|discriminate].
  destruct (run_generator up pool (int c)) as [pool1 l1] eqn:Er1.
  destruct (adjacent_files maxint pool1 components i pad true) as [down|] eqn:Edn;
    cbn [bind] in H; [|discriminate].
  destruct (run_generator down pool1 (int c)) as [pool2' f1] eqn:Er2.
  injection H as -> -> -> <-. split; [reflexivity|].
  now exists up, down, pool1.
Qed.

End RoundTripFacts.

(** ** Where the sequences come from *)

Section Origin.

Variable maxint : Z.

Lemma try_field_sorted (components : list string) (i : Z)
    (pool pool2 : list string) (f l p : Z) :
  try_field maxint components i pool = Ok (pool2, f, l, p) ->
  StronglySorted le_str pool -> StronglySorted le_str pool2.
Proof.
  intros H Hs. apply try_field_inv in H as (_ & up & down & pool1 & _ & H1 & _ & H2).
  unfold run_generator in *.
  pose proof (extend_sorted up (S (List.length pool)) (start up) pool
                (int (nth (Z.to_nat i) components "")) Hs) as Hs1.
  rewrite H1 in Hs1. simpl in Hs1.
  pose proof (extend_sorted down (S (List.length pool1)) (start down) pool1
                (int (nth (Z.to_nat i) components "")) Hs1) as Hs2.
  now rewrite H2 in Hs2.
Qed.

Lemma try_fields_sorted (components : list string) (indices : list Z) :
  forall pool pool' sequence,
    try_fields maxint components indices pool = Ok (pool', sequence) ->
    StronglySorted le_str pool -> StronglySorted le_str pool'.
Proof.
  induction indices as [|i indices IH]; intros pool pool' sequence H Hs;
    simpl in H.
  - now injection H as <- <-.
  - destruct (try_field maxint components i pool) as [[[[pool2 f] l] p]|] eqn:E;
      cbn [bind] in H; [|discriminate].
    apply try_field_sorted in E; [|exact Hs].
    destruct (negb (f - l =? 0)); [now injection H as <- <- | eauto].
Qed.

Lemma try_fields_origin (entry : string) :
  forall indices pre pool pool' s,
    pre ++ indices = range (Z.of_nat (List.length (split entry)) - 2) 0 (-2) ->
    (forall j, In j pre ->
       exists n p, try_field maxint (split entry) j pool = Ok (pool, n, n, p)) ->
    try_fields maxint (split entry) indices pool = Ok (pool', Some s) ->
    exists pool2 pre' i post,
      range (Z.of_nat (List.length (split entry)) - 2) 0 (-2) = pre' ++ i :: post
      /\ (forall j, In j pre' ->
            exists n p, try_field maxint (split entry) j pool = Ok (pool, n, n, p))
      /\ try_field maxint (split entry) i pool
         = Ok (pool2, first s, last s, padding s)
      /\ first s <> last s
      /\ s = init "" (join (firstn (Z.to_nat i) (split entry)))
                     (join (skipn (Z.to_nat (i + 1)) (split entry)))
                     (first s) (last s) (padding s).
Proof.
  induction indices as [|i indices IH]; intros pre pool pool' s Hr Hpre H;
    simpl in H; [discriminate|].
  destruct (try_field maxint (split entry) i pool) as [[[[pool2 f] l] p]|] eqn:E;
    cbn [bind] in H; [|discriminate].
  destruct (Z.eqb_spec (f - l) 0) as [Hz|Hz]; cbn [negb] in H.
  - assert (Hi : In i (range (Z.of_nat (List.length (split entry)) - 2) 0 (-2)))
      by (rewrite <- Hr; apply in_or_app; right; now left).
    destruct (field_indices _ i (split_comps entry) Hi) as (Hi0 & Hlen & Hrun).
    pose proof (try_field_spec maxint _ i pool pool2 f l p Hi0 Hlen Hrun E)
      as (_ & _ & Hsame & _).
    assert (f = l) by lia. subst l. rewrite (Hsame eq_refl) in *.
    apply (IH (pre ++ [i]) pool pool' s).
    + now rewrite <- List.app_assoc.
    + intros j Hj. apply in_app_or in Hj as [Hj|[<-|[]]]; [auto | eauto].
    + exact H.
  - injection H as <- <-. exists pool2, pre, i, indices. simpl.
    repeat split; auto. lia.
Qed.

(** Every sequence of the loop [while entries] has an origin, the pool
    being sorted. *)
Lemma while_entries_origin (fuel : nat) :
  forall st st',
    while_entries maxint fuel st = Ok st' ->
    StronglySorted le_str (entries st) ->
    Forall (origin maxint) (sequences st) ->
    Forall (origin maxint) (sequences st').
Proof.
  induction fuel as [|fuel IH]; intros st st' H Hs Ho; simpl in H.
  - now injection H as <-.
  - destruct (entries st) as [|entry pool] eqn:E; [now injection H as <-|].
    destruct (try_fields maxint (split entry) _ pool)
      as [[pool' sequence]|] eqn:Et; cbn [bind] in H; [|discriminate].
    inversion Hs as [|e p Hsp Hmin]; subst. rewrite Forall_forall in Hmin.
    pose proof (try_fields_sorted _ _ _ _ _ Et Hsp) as Hs'.
    destruct (match sequence with Some s => truth s | None => Ok false end)
      as [keep|]; cbn [bind] in H; [|discriminate].
    destruct sequence as [s|]; [destruct keep|]; apply IH in H; auto.
    cbn [sequences]. apply Forall_app. split; [exact Ho|].
    constructor; [|constructor].
    destruct (try_fields_origin entry _ [] pool pool' s eq_refl
                ltac:(intros j []) Et)
      as (pool2 & pre & i & post & H1 & H2 & H3 & H4 & H5).
    exists entry, pool, pool2, pre, i, post. repeat split; auto.
Qed.

Lemma find_in_list_origin (entries_ : list string)
    (seqs : list FileSequence) (others : list string) :
  find_in_list maxint entries_ = Ok (seqs, others) ->
  Forall (origin maxint) seqs.
Proof.
  intros H. apply find_in_list_inv in H as (st & Hrun & <- & _).
  apply while_entries_origin in Hrun; [exact Hrun | apply sort_sorted | constructor].
Qed.

End Origin.

(** ** Detection again, on the names of a sequence *)

Section RoundTrip.

Variable maxint : Z.

(** What a successful [try_field] says about [sys.maxint] and about the
    lower end of the range. *)
Lemma try_field_bounds (components : list string) (i : Z)
    (pool pool2 : list string) (f l p : Z) :
  digit_run (nth (Z.to_nat i) components "") ->
  try_field maxint components i pool = Ok (pool2, f, l, p) ->
  let N := int (nth (Z.to_nat i) components "") in
  N + Z.of_nat (List.length pool) + 1 <= maxint
  /\ (f < N -> 0 < f).
Proof.
  intros Hrun H N. destruct (zfill_digit_run _ Hrun) as [_ HN].
  apply try_field_inv in H as (_ & up & down & pool1 & Hu & _ & Hd & H2).
  split.
  - apply (adjacent_files_up maxint pool components i p HN). now exists up.
  - apply adjacent_files_ok in Hd as (_ & Hs & Hst & Hstop).
    apply run_generator_spec in H2 as (k & _ & _ & Hb & Hx & _).
    intros Hlt. destruct k as [|k]; [fold N in Hb; lia|].
    specialize (Hx k ltac:(lia)). rewrite Hstop, Hs, Hst, Hs in Hx.
    unfold in_xrange in Hx. simpl in Hx. fold N in Hb, Hx.
    rewrite Hst, Hs in Hb. fold N in Hb. lia.
Qed.

(** A component without neighbour in a pool has none in a smaller pool. *)
Lemma try_field_fail_smaller (components : list string) (i : Z)
    (pool rest : list string) (n p : Z) :
  digit_run (nth (Z.to_nat i) components "") ->
  try_field maxint components i pool = Ok (pool, n, n, p) ->
  (forall x, In x rest -> In x pool) ->
  (List.length rest <= List.length pool)%nat ->
  try_field maxint components i rest = Ok (rest, n, n, p).
Proof.
  intros Hrun H Hincl Hlen. destruct (zfill_digit_run _ Hrun) as [_ HN].
  pose proof (try_field_bounds _ _ _ _ _ _ _ Hrun H) as [Hmax _].
  apply try_field_inv in H as (Hp & up & down & pool1 & Hu & H1 & Hd & H2).
  set (N := int (nth (Z.to_nat i) components "")) in *.
  pose proof (run_generator_spec _ _ _ _ _ H1) as (k1 & _ & Hl1 & Hb1 & _ & _ & Hz1).
  pose proof (run_generator_spec _ _ _ _ _ H2) as (k2 & _ & Hl2 & Hb2 & _ & _ & Hz2).
  assert (k1 = O) by lia. assert (k2 = O) by lia. subst k1 k2.
  specialize (Hz1 eq_refl). subst pool1. subst n. clear Hb2 Hl1 Hl2 Hz2.
  unfold run_generator in H1, H2.
  apply extend_first in H1; [|reflexivity]. apply extend_first in H2; [|reflexivity].
  destruct (proj2 (adjacent_files_up maxint rest components i p HN)) as [up' Hu'];
    [fold N; lia|].
  assert (Hd' : adjacent_files maxint rest components i p true = Ok down)
    by exact Hd.
  rewrite Hp. apply (try_field_intro maxint components i rest rest rest up' down);
    rewrite <- ?Hp; auto.
  - unfold run_generator. apply extend_miss.
    apply adjacent_files_ok in Hu as (Hc & Hs & Hst & Hstop).
    apply adjacent_files_ok in Hu' as (Hc' & Hs' & Hst' & Hstop').
    rewrite Hst', Hs', Hstop', Hc'. rewrite Hst, Hs, Hstop, Hc in H1.
    fold N in H1 |- *. unfold in_xrange in *. simpl in *.
    destruct (Z.ltb_spec (N + 1) (N + Z.of_nat (List.length rest) + 1));
      [|reflexivity].
    destruct (mem _ rest) eqn:Hm; [|reflexivity].
    apply mem_In, Hincl, mem_In in Hm. rewrite Hm in H1.
    destruct (Z.ltb_spec (N + 1) (N + Z.of_nat (List.length pool) + 1));
      [discriminate | lia].
  - unfold run_generator. apply extend_miss.
    destruct (in_xrange (start down) (stop down) (step down)); [|reflexivity].
    destruct (mem _ rest) eqn:Hm; [|reflexivity].
    apply mem_In, Hincl, mem_In in Hm. now rewrite Hm in H2.
Qed.

Lemma try_fields_skip (components : list string) (pre indices : list Z)
    (pool : list string) :
  (forall j, In j pre ->
     exists n p, try_field maxint components j pool = Ok (pool, n, n, p)) ->
  try_fields maxint components (pre ++ indices) pool
  = try_fields maxint components indices pool.
Proof.
  induction pre as [|j pre IH]; intros H; [reflexivity|].
  simpl. destruct (H j (or_introl eq_refl)) as (n & p & ->). cbn [bind].
  rewrite Z.sub_diag. simpl. apply IH. intros j' Hj'. apply H. now right.
Qed.

End RoundTrip.

Section RoundTripField.

Variable maxint : Z.

Lemma yielded_length (g : generator) (n : Z) (k : nat) :
  List.length (yielded g n k) = k.
Proof. unfold yielded. now rewrite length_map, length_seq. Qed.

Lemma yielded_In (g : generator) (n : Z) (k : nat) (x : string) :
  In x (yielded g n k) ->
  exists j, (j < k)%nat /\ x = candidate g (n + Z.of_nat j * step g).
Proof.
  unfold yielded. rewrite in_map_iff. intros [j [<- Hj]].
  apply in_seq in Hj. exists j. split; [lia | reflexivity].
Qed.

(** On a pool that holds the names of [first .. last] but that of the entry,
    and nothing else, the counter of the entry gives [first] and [last]
    again and leaves the pool empty. *)
Lemma try_field_round_trip (components : list string) (i : Z)
    (rest : list string) (f l : Z) :
  0 < i -> (Z.to_nat i < List.length components)%nat ->
  digit_run (nth (Z.to_nat i) components "") ->
  let c := nth (Z.to_nat i) components "" in
  let N := int c in
  let pad := if startswith c "0" then len c else 0 in
  let name := fun n =>
    (join (firstn (Z.to_nat i) components) ++ zfill (str n) pad
     ++ join (skipn (Z.to_nat (i + 1)) components))%string in
  0 <= f -> f <= N <= l -> (f < N -> 0 < f) ->
  N + (l - f) + 1 <= maxint ->
  List.length rest = Z.to_nat (l - f) ->
  (forall n, f <= n <= l -> n <> N -> In (name n) rest) ->
  (forall x, In x rest -> exists n, f <= n <= l /\ x = name n) ->
  try_field maxint components i rest = Ok ([], f, l, pad).
Proof.
  intros Hi Hlen Hrun c N pad name Hf HN Hlow Hmax Hrest Hall Honly.
  assert (Hinj : forall n m, 0 <= n -> 0 <= m -> name n = name m -> n = m)
    by (intros n m Hn Hm; apply name_inj; assumption).
  assert (Hcand : forall n,
            join (set_item components (Z.to_nat i) (zfill (str n) pad)) = name n).
  { intros n. unfold name. rewrite candidate_name by assumption.
    now replace (Z.to_nat (i + 1)) with (S (Z.to_nat i)) by lia. }
  (* going up *)
  destruct (proj2 (adjacent_files_up maxint rest components i pad ltac:(fold c N; lia)))
    as [up Hu]; [fold c N; lia|].
  pose proof (adjacent_files_ok _ _ _ _ _ _ _ Hu) as (Hc1 & Hs1 & Hst1 & Hstop1).
  fold c N in Hst1, Hstop1. rewrite Hs1 in Hst1.
  destruct (extend_hits up (Z.to_nat (l - N)) (S (List.length rest))
              (start up) rest N) as (pool1 & He1 & Hp1).
  { lia. }
  { intros j Hj. rewrite Hstop1, Hs1, Hst1. unfold in_xrange. simpl.
    apply Z.ltb_lt. lia. }
  { intros j Hj. rewrite Hc1, Hs1, Hst1, Hcand. apply Hall; lia. }
  { intros j j' Hj. rewrite Hc1, Hs1, Hst1, !Hcand. intros E.
    apply Hinj in E; lia. }
  { right. rewrite Hc1, Hs1, Hst1, Hcand. intros Hin.
    apply Honly in Hin as (n & Hn & E). apply Hinj in E; lia. }
  assert (El : (match Z.to_nat (l - N) with
                | O => N
                | S _ => start up + (Z.of_nat (Z.to_nat (l - N)) - 1) * step up
                end) = l).
  { rewrite Hs1, Hst1. destruct (Z.to_nat (l - N)) eqn:E; lia. }
  rewrite El in He1.
  assert (Hl1 : List.length pool1 = Z.to_nat (N - f)).
  { apply Permutation_length in Hp1.
    rewrite length_app, yielded_length in Hp1. lia. }
  (* going down *)
  destruct (proj2 (adjacent_files_down maxint pool1 components i pad
                     ltac:(fold c N; lia)))
    as [down Hd]; [fold c N; lia|].
  pose proof (adjacent_files_ok _ _ _ _ _ _ _ Hd) as (Hc2 & Hs2 & Hst2 & Hstop2).
  fold c N in Hst2. rewrite Hs2 in Hst2.
  assert (Hin1 : forall n, f <= n < N -> In (name n) pool1).
  { intros n Hn.
    pose proof (Hall n ltac:(lia) ltac:(lia)) as Hin.
    apply (Permutation_in _ Hp1), in_app_or in Hin as [Hin|Hin]; [|exact Hin].
    apply yielded_In in Hin as (j & Hj & E).
    rewrite Hc1, Hs1, Hst1, Hcand in E. apply Hinj in E; lia. }
  destruct (extend_hits down (Z.to_nat (N - f)) (S (List.length pool1))
              (start down) pool1 N) as (pool2 & He2 & Hp2).
  { lia. }
  { intros j Hj. rewrite Hstop2, Hs2, Hst2. unfold in_xrange. simpl.
    apply Z.ltb_lt. lia. }
  { intros j Hj. rewrite Hc2, Hs2, Hst2, Hcand. apply Hin1; lia. }
  { intros j j' Hj. rewrite Hc2, Hs2, Hst2, !Hcand. intros E.
    apply Hinj in E; lia. }
  { rewrite Hc2, Hs2, Hst2, Hstop2, Hcand. unfold in_xrange. simpl.
    destruct (Z.ltb_spec 0 (N + -1 + Z.of_nat (Z.to_nat (N - f)) * -1));
      [right | now left].
    intros Hin.
    assert (Hin' : In (name (N + -1 + Z.of_nat (Z.to_nat (N - f)) * -1)) rest).
    { apply (Permutation_in _ (Permutation_sym Hp1)), in_or_app. now right. }
    apply Honly in Hin' as (n & Hn & E). apply Hinj in E; lia. }
  assert (Ef : (match Z.to_nat (N - f) with
                | O => N
                | S _ => start down + (Z.of_nat (Z.to_nat (N - f)) - 1) * step down
                end) = f).
  { rewrite Hs2, Hst2. destruct (Z.to_nat (N - f)) eqn:E; lia. }
  rewrite Ef in He2.
  assert (pool2 = []).
  { apply Permutation_length in Hp2.
    rewrite length_app, yielded_length in Hp2.
    destruct pool2; [reflexivity | simpl in Hp2; lia]. }
  subst pool2.
  exact (try_field_intro maxint components i rest pool1 [] up down f l
           Hu He1 Hd He2).
Qed.

End RoundTripField.

Section RoundTripDetection.

Variable maxint : Z.

Lemma while_entries_step (fuel : nat) (entry : string) (pool pool' : list string)
    (seqs : list FileSequence) (others : list string) (s : FileSequence) :
  try_fields maxint (split entry)
    (range (Z.of_nat (List.length (split entry)) - 2) 0 (-2)) pool
  = Ok (pool', Some s) ->
  truth s = Ok true ->
  while_entries maxint (S fuel)
    {| entries := entry :: pool; sequences := seqs; other_files := others |}
  = while_entries maxint fuel
      {| entries := pool'; sequences := seqs ++ [s]; other_files := others |}.
Proof.
  intros H Ht. cbn [while_entries entries sequences other_files].
  rewrite H. cbn [bind]. rewrite Ht. reflexivity.
Qed.

Lemma while_entries_nil (fuel : nat) (st : state) :
  entries st = [] -> while_entries maxint fuel st = Ok st.
Proof. intros H. destruct fuel; simpl; [reflexivity | now rewrite H]. Qed.

Lemma NoDup_map_on {A B : Type} (f : A -> B) (l : list A) :
  (forall x y, In x l -> In y l -> f x = f y -> x = y) ->
  NoDup l -> NoDup (map f l).
Proof.
  intros Hinj. induction 1 as [|x l Hx Hl IH]; simpl; constructor.
  - rewrite in_map_iff. intros [y [E Hy]].
    apply Hinj in E; [subst; contradiction | now right | now left].
  - apply IH. intros a b Ha Hb. apply Hinj; now right.
Qed.

Lemma range_step_1_In (a b n : Z) : In n (range a b 1) <-> a <= n < b.
Proof.
  rewrite range_step_1, in_map_iff. split.
  - intros [k [<- Hk]]. apply in_seq in Hk. lia.
  - intros H. exists (Z.to_nat (n - a)). split; [lia|]. apply in_seq. lia.
Qed.

Lemma range_step_1_NoDup (a b : Z) : NoDup (range a b 1).
Proof.
  rewrite range_step_1. apply NoDup_map_on; [|apply seq_NoDup].
  intros x y _ _. lia.
Qed.

(** Detection on the names of a sequence with an origin gives the sequence
    back, and nothing else. *)
Lemma origin_round_trip (s : FileSequence) (names : list string) :
  origin maxint s -> iter s = Ok names ->
  find_in_list maxint names = Ok ([s], []).
Proof.
  intros (entry & pool & pool2 & pre & i & post & Hr & Hpre & Ht & Hne & Hs & Hmin) Hn.
  set (comps := split entry) in *.
  set (full := range (Z.of_nat (List.length comps) - 2) 0 (-2)) in *.
  assert (Hi : In i full) by (rewrite Hr; apply in_or_app; right; now left).
  destruct (field_indices comps i (split_comps entry) Hi) as (Hi0 & Hlen & Hrun).
  pose proof (try_field_spec maxint comps i pool pool2 _ _ _ Hi0 Hlen Hrun Ht)
    as (Hf & HN & _ & Hl & _ & Hname & names0 & Hn0 & Hperm).
  pose proof (try_field_bounds maxint comps i pool pool2 _ _ _ Hrun Ht)
    as (Hmax & Hlow).
  pose proof (try_field_inv maxint comps i pool pool2 _ _ _ Ht) as (Hpad & _).
  cbv zeta in *. rewrite <- Hs in Hname, Hn0.
  rewrite Hn in Hn0. injection Hn0 as <-.
  assert (Ej : join comps = entry) by apply join_split.
  rewrite Ej in Hname, Hperm.
  set (c := nth (Z.to_nat i) comps "") in *. set (N := int c) in *.
  set (pad := if startswith c "0" then len c else 0) in *.
  set (hd := join (firstn (Z.to_nat i) comps)) in *.
  set (tl := join (skipn (Z.to_nat (i + 1)) comps)) in *.
  set (f := first s) in *. set (l := last s) in *.
  assert (Hh : head s = hd) by (rewrite Hs; reflexivity).
  assert (Htl : tail s = tl) by (rewrite Hs; reflexivity).
  assert (Hpath : path s = "") by (rewrite Hs; reflexivity).
  set (name := fun n => (hd ++ zfill (str n) pad ++ tl)%string).
  assert (Hinj : forall n m, 0 <= n -> 0 <= m -> name n = name m -> n = m)
    by (intros n m Hn' Hm; apply name_inj; assumption).
  assert (Hentry : entry = name N).
  { rewrite filename_in_range in Hname by (fold f l; lia).
    injection Hname as E. rewrite <- E. unfold name. now rewrite Hh, Htl, Hpad. }
  assert (Hnames : names = map name (range f (l + 1) 1)).
  { rewrite iter_ok in Hn. injection Hn as <-. fold f l.
    rewrite Hh, Htl, Hpad. reflexivity. }
  assert (Hin : forall x, In x names <-> exists n, f <= n <= l /\ x = name n).
  { intros x. rewrite Hnames, in_map_iff. split.
    - intros [n [<- H]]. apply range_step_1_In in H. exists n. split; [lia | auto].
    - intros [n [H ->]]. exists n. split; [reflexivity|].
      apply range_step_1_In. lia. }
  assert (Hnd : NoDup names).
  { rewrite Hnames. apply NoDup_map_on; [|apply range_step_1_NoDup].
    intros x y Hx Hy. apply range_step_1_In in Hx, Hy. apply Hinj; lia. }
  assert (Hpool : forall x, In x names -> x = entry \/ In x pool).
  { intros x Hx.
    assert (Hx' : In x (names ++ pool2)) by (apply in_or_app; now left).
    apply (Permutation_in _ (Permutation_sym Hperm)) in Hx' as [E|Hx'];
      [now left | now right]. }
  destruct (sort_least names entry) as [rest Hsort].
  { apply Hin. exists N. split; [lia | exact Hentry]. }
  { intros y Hy. apply Hpool in Hy as [->|Hy]; [apply le_str_refl | auto]. }
  pose proof (sort_perm names) as Hps. rewrite Hsort in Hps.
  assert (Hnd' : NoDup (entry :: rest))
    by (eapply Permutation_NoDup; [symmetry; exact Hps | exact Hnd]).
  inversion Hnd' as [|e r Hnotin _]; subst e r.
  assert (Hlen_names : List.length names = S (Z.to_nat (l - f))).
  { rewrite Hnames, length_map, range_step_1, length_map, length_seq. lia. }
  assert (Hrest : List.length rest = Z.to_nat (l - f)).
  { apply Permutation_length in Hps. simpl in Hps. lia. }
  assert (Hall : forall n, f <= n <= l -> n <> N -> In (name n) rest).
  { intros n Hn' Hd.
    assert (H : In (name n) names) by (apply Hin; eauto).
    apply (Permutation_in _ (Permutation_sym Hps)) in H as [E|H]; [|exact H].
    rewrite Hentry in E. apply Hinj in E; lia. }
  assert (Honly : forall x, In x rest -> exists n, f <= n <= l /\ x = name n).
  { intros x Hx. apply Hin. apply (Permutation_in _ Hps). now right. }
  assert (Hsub : forall x, In x rest -> In x pool).
  { intros x Hx.
    assert (H : In x names) by (apply (Permutation_in _ Hps); now right).
    apply Hpool in H as [->|H]; [contradiction | exact H]. }
  assert (Hfield : try_field maxint comps i rest = Ok ([], f, l, pad)).
  { apply try_field_round_trip; auto; fold c N; lia. }
  assert (Hfields : try_fields maxint comps full rest = Ok ([], Some s)).
  { rewrite Hr, try_fields_skip.
    - cbn [try_fields]. rewrite Hfield. cbn [bind].
      destruct (Z.eqb_spec (f - l) 0); [lia|]. cbn [negb].
      fold hd tl. do 3 f_equal. rewrite Hs at 1. fold f l hd tl.
      now rewrite Hpad.
    - intros j Hj. destruct (Hpre j Hj) as (n & p & Hj').
      exists n, p. apply (try_field_fail_smaller maxint comps j pool); auto; [|lia].
      assert (Hjf : In j full) by (rewrite Hr; apply in_or_app; now left).
      now destruct (field_indices comps j (split_comps entry) Hjf) as (_ & _ & H). }
  unfold find_in_list, find_in_list_run. rewrite Hsort, Hlen_names.
  rewrite (while_entries_step _ entry rest [] [] [] s Hfields).
  - rewrite while_entries_nil by reflexivity. reflexivity.
  - apply truth_detected. unfold detected. fold f l. repeat split; auto. lia.
Qed.

End RoundTripDetection.

(** C2. For every sequence [find_in_list] returns on some input, running
    [find_in_list] on the names the sequence enumerates gives that sequence
    alone (same head, tail, first, last and padding) and no other file. *)
Theorem round_trip (maxint : Z) (entries_ : list string)
    (seqs : list FileSequence) (others : list string)
    (s : FileSequence) (names : list string) :
  find_in_list maxint entries_ = Ok (seqs, others) ->
  In s seqs ->
  iter s = Ok names ->
  find_in_list maxint names = Ok ([s], []).
Proof.
  intros H Hs Hn. apply find_in_list_origin in H.
  rewrite Forall_forall in H. apply origin_round_trip; auto.
Qed.

Lemma round_trip_witness :
  find_in_list (2 ^ 63 - 1) ["b8"; "b9"; "b10"]
  = Ok ([init "" "b" "" 8 10 0], []).
Proof.
  apply (round_trip (2 ^ 63 - 1) ["x"; "b10"; "b9"; "b12"; "b8"]
           [init "" "b" "" 8 10 0] ["b12"; "x"]).
  - vm_compute. reflexivity.
  - now left.
  - vm_compute. reflexivity.
Defined.

(** ** The detector: what [find_in_list] returns *)

Ltac distinct_strings :=
  repeat (constructor; [simpl; intuition discriminate|]); constructor.

(** C1. The names of the input are the names the returned sequences
    enumerate together with the other files: nothing is left out, nothing
    is made up, and, for distinct input names, no name comes twice, be it in
    two sequences, twice in one, or in a sequence and among the others. *)
Theorem partition_completeness (maxint : Z) (entries_ : list string)
    (seqs : list FileSequence) (others : list string) :
  NoDup entries_ ->
  find_in_list maxint entries_ = Ok (seqs, others) ->
  exists names : list (list string),
    mapM iter seqs = Ok names
    /\ Permutation (List.concat names ++ others) entries_
    /\ NoDup (List.concat names ++ others).
Proof.
  intros Hnd H. apply find_in_list_inv in H as (st & Hrun & <- & <-).
  apply find_in_list_run_spec in Hrun as (_ & _ & names & Hn & Hp).
  exists names. split; [exact Hn|]. split; [exact Hp|].
  eapply Permutation_NoDup; [symmetry; exact Hp | exact Hnd].
Qed.

Lemma partition_completeness_witness :
  exists names : list (list string),
    mapM iter [init "" "a." ".ext" 1 2 2] = Ok names
    /\ Permutation (List.concat names ++ ["a.04.ext"; "frame5.png"])
                   ["frame5.png"; "a.02.ext"; "a.04.ext"; "a.01.ext"]
    /\ NoDup (List.concat names ++ ["a.04.ext"; "frame5.png"]).
Proof.
  apply (partition_completeness (2 ^ 63 - 1)).
  - distinct_strings.
  - vm_compute. reflexivity.
Defined.

(** C3. The names ["0998"], ["0999"], ["1000"] make one sequence, 998 to
    1000 with padding 4 and empty head and tail, and no other file: the
    list is sorted first, so the padded ["0998"] is the entry the sequence
    grows from. *)
Theorem padding_preference (maxint : Z) :
  2 ^ 31 - 1 <= maxint ->
  find_in_list maxint ["0998"; "0999"; "1000"]
  = Ok ([{| path := ""; head := ""; tail := "";
            first := 998; last := 1000; padding := 4 |}], [])
  /\ find_in_list maxint ["1000"; "0999"; "0998"]
     = Ok ([{| path := ""; head := ""; tail := "";
               first := 998; last := 1000; padding := 4 |}], [])
  /\ sort ["1000"; "0999"; "0998"] = ["0998"; "0999"; "1000"].
Proof.
  intros H. split; [|split].
  - apply (find_in_list_mono (2 ^ 31 - 1) maxint H). vm_compute. reflexivity.
  - apply (find_in_list_mono (2 ^ 31 - 1) maxint H). vm_compute. reflexivity.
  - reflexivity.
Qed.

Lemma padding_preference_witness :
  find_in_list (2 ^ 63 - 1) ["0998"; "0999"; "1000"]
  = Ok ([{| path := ""; head := ""; tail := "";
            first := 998; last := 1000; padding := 4 |}], []).
Proof.
  apply (padding_preference (2 ^ 63 - 1)). vm_compute. discriminate.
Defined.

(** C4, as the code has it. [find_in_list] works on the list it is given:
    it sorts it in place and takes every name out of it, so that the list
    of the caller is empty when the call returns. *)
Theorem find_in_list_empties_input (maxint : Z) (entries_ : list string)
    (st : state) :
  find_in_list_run maxint entries_ = Ok st -> entries st = [].
Proof. intros H. now apply find_in_list_run_spec in H. Qed.

Lemma find_in_list_empties_input_witness :
  entries {| entries := []; sequences := [];
             other_files := ["a.txt"; "b.txt"] |} = [].
Proof.
  apply (find_in_list_empties_input (2 ^ 63 - 1) ["b.txt"; "a.txt"]).
  vm_compute. reflexivity.
Defined.

(** C4, as stated, fails: after the call on the list ["b.txt"; "a.txt"] the
    list is empty. *)
Lemma find_in_list_mutates_input :
  exists st : state,
    find_in_list_run (2 ^ 63 - 1) ["b.txt"; "a.txt"] = Ok st
    /\ entries st <> ["b.txt"; "a.txt"].
Proof.
  eexists. split; [vm_compute; reflexivity | discriminate].
Qed.

Section NoNeighbour.

Variable maxint : Z.

Lemma try_field_no_neighbour (components : list string) (i : Z)
    (pool pool2 : list string) (f l p : Z) :
  let c := nth (Z.to_nat i) components "" in
  let pad := if startswith c "0" then len c else 0 in
  let name := fun n =>
    join (set_item components (Z.to_nat i) (zfill (str n) pad)) in
  ~ In (name (int c + 1)) pool -> ~ In (name (int c - 1)) pool ->
  try_field maxint components i pool = Ok (pool2, f, l, p) ->
  pool2 = pool /\ f = l.
Proof.
  intros c pad name Hup Hdown H.
  apply try_field_inv in H as (Hp & up & down & pool1 & Hu & H1 & Hd & H2).
  fold c in Hp, H1, H2. fold pad in Hp. subst p.
  apply adjacent_files_ok in Hu as (Hc1 & Hs1 & Hst1 & _).
  apply adjacent_files_ok in Hd as (Hc2 & Hs2 & Hst2 & _).
  fold c in Hst1, Hst2. rewrite Hs1 in Hst1. rewrite Hs2 in Hst2.
  unfold run_generator in H1, H2.
  rewrite extend_miss in H1.
  - injection H1 as <- <-. rewrite extend_miss in H2.
    + now injection H2 as <- <-.
    + rewrite Hc2, Hst2. cbv beta.
      replace (int c + -1) with (int c - 1) by lia.
      apply mem_not_In in Hdown. unfold name in Hdown. rewrite Hdown.
      apply andb_false_r.
  - rewrite Hc1, Hst1. cbv beta.
    apply mem_not_In in Hup. unfold name in Hup. rewrite Hup.
    apply andb_false_r.
Qed.

Lemma try_fields_no_neighbour (components : list string) (indices : list Z)
    (pool : list string) (r : list string * option FileSequence) :
  (forall i, In i indices ->
     let c := nth (Z.to_nat i) components "" in
     let pad := if startswith c "0" then len c else 0 in
     let name := fun n =>
       join (set_item components (Z.to_nat i) (zfill (str n) pad)) in
     ~ In (name (int c + 1)) pool /\ ~ In (name (int c - 1)) pool) ->
  try_fields maxint components indices pool = Ok r ->
  r = (pool, None).
Proof.
  induction indices as [|i indices IH]; intros Hnn H; simpl in H.
  - now injection H as <-.
  - destruct (try_field maxint components i pool) as [[[[pool2 f] l] p]|] eqn:E;
      cbn [bind] in H; [|discriminate].
    destruct (Hnn i (or_introl eq_refl)) as [Hup Hdown].
    destruct (try_field_no_neighbour _ _ _ _ _ _ _ Hup Hdown E) as [-> ->].
    rewrite Z.sub_diag in H. cbn [Z.eqb negb] in H.
    apply IH; [|exact H]. intros j Hj. apply Hnn. now right.
Qed.

(** An entry without neighbour in the pool goes to the other files. *)
Lemma while_entries_no_neighbour (fuel : nat) (entry : string)
    (pool : list string) (seqs : list FileSequence) (others : list string)
    (r : list string * option FileSequence) :
  no_neighbour entry pool ->
  try_fields maxint (split entry)
    (range (Z.of_nat (List.length (split entry)) - 2) 0 (-2)) pool = Ok r ->
  while_entries maxint (S fuel)
    {| entries := entry :: pool; sequences := seqs; other_files := others |}
  = while_entries maxint fuel
      {| entries := pool; sequences := seqs;
         other_files := others ++ [entry] |}.
Proof.
  intros Hnn H. cbn [while_entries entries sequences other_files].
  rewrite H. rewrite (try_fields_no_neighbour _ _ _ _ Hnn H). reflexivity.
Qed.

End NoNeighbour.

Lemma iter_length (s : FileSequence) (names : list string) :
  iter s = Ok names ->
  List.length names = Z.to_nat (last s + 1 - first s).
Proof.
  rewrite iter_ok. intros [= <-].
  now rewrite length_map, range_step_1, length_map, length_seq.
Qed.

(** A single name is never a sequence. *)
Lemma find_in_list_single (maxint : Z) (entry : string)
    (seqs : list FileSequence) (others : list string) :
  find_in_list maxint [entry] = Ok (seqs, others) ->
  seqs = [] /\ others = [entry].
Proof.
  intros H. apply find_in_list_inv in H as (st & Hrun & <- & <-).
  apply find_in_list_run_spec in Hrun as (_ & Hd & names & Hn & Hp).
  destruct (sequences st) as [|s seqs].
  - simpl in Hn. injection Hn as <-. simpl in Hp.
    split; [reflexivity|]. now apply Permutation_length_1_inv, Permutation_sym.
  - exfalso. inversion Hd as [|s' l' (_ & _ & Hlt) _]. subst.
    simpl in Hn. destruct (iter s) as [ns|] eqn:Es; cbn [bind] in Hn; [|discriminate].
    destruct (mapM iter seqs) as [nss|]; cbn [bind] in Hn; [|discriminate].
    injection Hn as <-. apply Permutation_length in Hp.
    apply iter_length in Es. simpl in Hp.
    rewrite !length_app, Es in Hp. lia.
Qed.

(** C5. Every sequence [find_in_list] returns has [first < last], that is
    two names at least; a name that is alone in the input is put among the
    other files, as ["frame5.png"] is; and so is, in the loop, every entry
    none of whose numeric components has a neighbour in the pool, going up
    or going down. *)
Theorem no_singleton_sequences (maxint : Z) :
  (forall entries_ seqs others,
     find_in_list maxint entries_ = Ok (seqs, others) ->
     Forall (fun s => first s < last s) seqs)
  /\ (forall entry seqs others,
        find_in_list maxint [entry] = Ok (seqs, others) ->
        seqs = [] /\ others = [entry])
  /\ (forall fuel entry pool seqs others r,
        no_neighbour entry pool ->
        try_fields maxint (split entry)
          (range (Z.of_nat (List.length (split entry)) - 2) 0 (-2)) pool
        = Ok r ->
        while_entries maxint (S fuel)
          {| entries := entry :: pool; sequences := seqs;
             other_files := others |}
        = while_entries maxint fuel
            {| entries := pool; sequences := seqs;
               other_files := others ++ [entry] |})
  /\ (2 ^ 31 - 1 <= maxint ->
      find_in_list maxint ["frame5.png"] = Ok ([], ["frame5.png"])).
Proof.
  split; [|split; [|split; [apply while_entries_no_neighbour|]]].
  - intros entries_ seqs others H.
    apply find_in_list_inv in H as (st & Hrun & <- & <-).
    apply find_in_list_run_spec in Hrun as (_ & Hd & _).
    eapply Forall_impl; [|exact Hd]. now intros s (_ & _ & Hs).
  - apply find_in_list_single.
  - intros H. apply (find_in_list_mono (2 ^ 31 - 1) maxint H).
    vm_compute. reflexivity.
Qed.

Lemma no_singleton_sequences_witness :
  Forall (fun s => first s < last s) [init "" "a." ".ext" 1 2 2]
  /\ find_in_list (2 ^ 63 - 1) ["frame5.png"] = Ok ([], ["frame5.png"]).
Proof.
  pose proof (no_singleton_sequences (2 ^ 63 - 1)) as (H1 & _ & _ & H3).
  split.
  - apply (H1 ["a.01.ext"; "a.02.ext"; "a.04.ext"] _ ["a.04.ext"]).
    vm_compute. reflexivity.
  - apply H3. vm_compute. discriminate.
Defined.

(** C9 fails on the code: a run of digits whose number is not a C long makes
    [xrange] raise [OverflowError], here on a single name with a counter of
    twenty digits ([sys.maxint] is [2 ^ 63 - 1] at most). *)
Lemma find_in_list_overflow :
  find_in_list (2 ^ 63 - 1) ["frame.99999999999999999999.png"]
  = Raise OverflowError
  /\ find_in_list (2 ^ 31 - 1) ["frame.99999999999999999999.png"]
     = Raise OverflowError.
Proof. split; vm_compute; reflexivity. Qed.

(** C10. [__init__] stores the empty string as [path], whatever it is
    given; the sequences of [find_in_list] have that empty path, and only
    [find] gives them one, by assignment. *)
Theorem init_discards_path (maxint : Z) :
  (forall path_ head_ tail_ first_ last_ padding_,
     path (init path_ head_ tail_ first_ last_ padding_) = "")
  /\ (forall entries_ seqs others,
        find_in_list maxint entries_ = Ok (seqs, others) ->
        Forall (fun s => path s = "") seqs)
  /\ (forall listing search_path seqs others,
        find maxint listing search_path = Ok (seqs, others) ->
        Forall (fun s => path s = search_path) seqs).
Proof.
  split; [reflexivity | split].
  - intros entries_ seqs others H.
    apply find_in_list_inv in H as (st & Hrun & <- & <-).
    apply find_in_list_run_spec in Hrun as (_ & Hd & _).
    eapply Forall_impl; [|exact Hd]. now intros s (Hs & _).
  - intros listing search_path seqs others H. unfold find in H.
    destruct (find_in_list maxint listing) as [[seqs' others']|];
      cbn [bind] in H; [|discriminate].
    injection H as <- <-. apply Forall_forall. intros s Hs.
    apply in_map_iff in Hs as [s' [<- _]]. reflexivity.
Qed.

Lemma init_discards_path_witness :
  Forall (fun s => path s = "") [init "/stuff" "a." ".ext" 1 2 2]
  /\ Forall (fun s => path s = "/stuff")
       [set_path "/stuff" (init "" "a." ".ext" 1 2 2)].
Proof.
  pose proof (init_discards_path (2 ^ 63 - 1)) as (_ & H2 & H3).
  split.
  - apply (H2 ["a.01.ext"; "a.02.ext"] _ []). vm_compute. reflexivity.
  - apply (H3 ["a.01.ext"; "a.02.ext"] "/stuff" _ []). vm_compute. reflexivity.
Defined.

(** ** When [find_in_list] returns *)

Section Returns.

Variable maxint : Z.

Lemma try_field_returns (components : list string) (i : Z) (pool : list string) :
  digit_run (nth (Z.to_nat i) components "") ->
  int (nth (Z.to_nat i) components "") + Z.of_nat (List.length pool) + 1 <= maxint ->
  exists r, try_field maxint components i pool = Ok r.
Proof.
  intros Hrun Hmax. destruct (zfill_digit_run _ Hrun) as [_ HN].
  set (c := nth (Z.to_nat i) components "") in *.
  set (pad := if startswith c "0" then len c else 0).
  destruct (proj2 (adjacent_files_up maxint pool components i pad HN) Hmax)
    as [up Hu].
  destruct (run_generator up pool (int c)) as [pool1 l] eqn:E1.
  destruct (proj2 (adjacent_files_down maxint pool1 components i pad HN))
    as [down Hd]; [fold c; lia|].
  destruct (run_generator down pool1 (int c)) as [pool2 f] eqn:E2.
  exists (pool2, f, l, pad).
  exact (try_field_intro maxint components i pool pool1 pool2 up down f l
           Hu E1 Hd E2).
Qed.

Lemma try_fields_returns (components : list string) :
  comps components ->
  forall indices pool,
    (forall i, In i indices ->
       In i (range (Z.of_nat (List.length components) - 2) 0 (-2))) ->
    (forall i, In i indices ->
       int (nth (Z.to_nat i) components "") + Z.of_nat (List.length pool) + 1
       <= maxint) ->
    exists r, try_fields maxint components indices pool = Ok r.
Proof.
  intros Hc. induction indices as [|i indices IH]; intros pool Hin Hmax.
  - eexists; reflexivity.
  - destruct (field_indices components i Hc (Hin i (or_introl eq_refl)))
      as (Hi & Hlen & Hrun).
    destruct (try_field_returns components i pool Hrun (Hmax i (or_introl eq_refl)))
      as [[[[pool2 f] l] p] E].
    simpl. rewrite E. cbn [bind].
    destruct (negb (f - l =? 0)); [eexists; reflexivity|].
    pose proof (try_field_spec maxint components i pool pool2 f l p Hi Hlen Hrun E)
      as (_ & _ & _ & Hl & _).
    apply IH.
    + intros j Hj. apply Hin. now right.
    + intros j Hj. specialize (Hmax j (or_intror Hj)). lia.
Qed.

Lemma while_entries_returns (fuel : nat) :
  forall st,
    (forall e, In e (entries st) ->
       forall n, In n (counters e) ->
         n + Z.of_nat (List.length (entries st)) + 1 <= maxint) ->
    exists st', while_entries maxint fuel st = Ok st'.
Proof.
  induction fuel as [|fuel IH]; intros st Hsmall; [eexists; reflexivity|].
  simpl. destruct (entries st) as [|entry pool] eqn:E; [eexists; reflexivity|].
  destruct (try_fields_returns (split entry) (split_comps entry) _ pool
              (fun i Hi => Hi)) as [[pool' sequence] Et].
  { intros i Hi.
    assert (Hn : In (int (nth (Z.to_nat i) (split entry) "")) (counters entry))
      by (unfold counters; apply in_map_iff; eauto).
    specialize (Hsmall entry (or_introl eq_refl) _ Hn). simpl in Hsmall. lia. }
  rewrite Et. cbn [bind].
  pose proof (try_fields_spec maxint (split entry) (split_comps entry) _ _ _ _
                (fun i Hi => Hi) Et) as Hs.
  destruct sequence as [s|].
  - destruct Hs as (Hd & Hlen & Hincl & _).
    rewrite (truth_detected s Hd). cbn [bind]. apply IH.
    cbn [entries]. intros e He n Hn.
    specialize (Hsmall e (or_intror (Hincl e He)) n Hn). simpl in Hsmall. lia.
  - subst pool'. cbn [bind]. apply IH.
    cbn [entries]. intros e He n Hn.
    specialize (Hsmall e (or_intror He) n Hn). simpl in Hsmall. lia.
Qed.

(** [find_in_list] returns on every list of names whose digit runs are
    numbers small enough for [xrange]: each of them, plus the number of
    names, is below [sys.maxint]. *)
Lemma find_in_list_returns (entries_ : list string) :
  (forall e, In e entries_ ->
     forall n, In n (counters e) ->
       n + Z.of_nat (List.length entries_) + 1 <= maxint) ->
  exists seqs others, find_in_list maxint entries_ = Ok (seqs, others).
Proof.
  intros Hsmall.
  destruct (while_entries_returns (List.length entries_)
              {| entries := sort entries_; sequences := []; other_files := [] |})
    as [st Hst].
  - cbn [entries]. intros e He n Hn.
    rewrite (Permutation_length (sort_perm entries_)).
    apply (Hsmall e); [|exact Hn]. exact (Permutation_in _ (sort_perm entries_) He).
  - exists (sequences st), (other_files st). unfold find_in_list, find_in_list_run.
    now rewrite Hst.
Qed.

End Returns.

(** * Further properties of the class [FileSequence] *)

(** ** Enumeration and indexing *)

Lemma range_step_1_length (a b : Z) :
  List.length (range a b 1) = Z.to_nat (b - a).
Proof. now rewrite range_step_1, length_map, length_seq. Qed.

Lemma range_step_1_nth (a b : Z) (k : nat) :
  (k < Z.to_nat (b - a))%nat -> nth k (range a b 1) 0 = a + Z.of_nat k.
Proof.
  intros H. rewrite range_step_1.
  rewrite (nth_indep _ 0 ((fun j => a + Z.of_nat j) O))
    by (now rewrite length_map, length_seq).
  rewrite (map_nth (fun j => a + Z.of_nat j) (seq 0 (Z.to_nat (b - a))) O k).
  now rewrite seq_nth.
Qed.

Lemma filename_ok_range (self : FileSequence) (number : Z) (x : string) :
  filename self number = Ok x -> first self <= number <= last self.
Proof.
  intros H.
  destruct (Z.le_gt_cases (first self) number), (Z.le_gt_cases number (last self));
    try lia; rewrite filename_out_of_range in H by lia; discriminate.
Qed.

Lemma iter_positions (self : FileSequence) :
  exists names,
    iter self = Ok names
    /\ Z.of_nat (List.length names) = Z.max 0 (length self)
    /\ forall k, 0 <= k < length self ->
         filename self (first self + k) = Ok (nth (Z.to_nat k) names "").
Proof.
  eexists. split; [apply iter_ok|]. split.
  - rewrite length_map, range_step_1_length. unfold length. lia.
  - intros k Hk. unfold length in Hk.
    rewrite filename_in_range by lia. f_equal.
    set (nm := fun n => (head self ++ zfill (str n) (padding self) ++ tail self)%string).
    rewrite (nth_indep _ _ (nm 0))
      by (rewrite length_map, range_step_1_length; lia).
    rewrite (map_nth nm), range_step_1_nth by lia.
    unfold nm. now rewrite Z2Nat.id by lia.
Qed.

(** X1. Enumerating a sequence never raises: it yields the names of
    [first], [first + 1], ..., [last] in this order, as many as [__len__]
    says, and none when [last < first]. *)
Theorem iter_yields_length (self : FileSequence) :
  exists names,
    iter self = Ok names
    /\ Z.of_nat (List.length names) = Z.max 0 (length self)
    /\ forall k, 0 <= k < length self ->
         filename self (first self + k) = Ok (nth (Z.to_nat k) names "").
Proof. exact (iter_positions self). Qed.

(** X2. Indexing agrees with enumeration: for [0 <= k < len(self)], both
    [self[k]] and [self[k - len(self)]] are the name that comes at position
    [k] of the enumeration; an index of [len(self)] or more, or below
    [-len(self)], raises [IndexError]. *)
Theorem getitem_iter (self : FileSequence) (names : list string) (k : Z) :
  iter self = Ok names ->
  (0 <= k < length self ->
     getitem self (KInt k) = Ok (nth (Z.to_nat k) names "")
     /\ getitem self (KInt (k - length self)) = Ok (nth (Z.to_nat k) names ""))
  /\ (0 <= length self -> length self <= k \/ k < - length self ->
      getitem self (KInt k) = Raise IndexError).
Proof.
  intros Hn. destruct (iter_positions self) as (names' & Hn' & _ & Hnth).
  rewrite Hn in Hn'. injection Hn' as <-. split.
  - intros Hk. split.
    + unfold getitem. destruct (Z.leb_spec 0 k); [|lia]. now apply Hnth.
    + unfold getitem. destruct (Z.leb_spec 0 (k - length self)); [lia|].
      rewrite <- (Hnth k Hk). f_equal. unfold length. lia.
  - intros Hl Hk. unfold getitem. unfold length in *.
    destruct (Z.leb_spec 0 k); apply filename_out_of_range; lia.
Qed.

Lemma getitem_iter_witness :
  getitem (init "" "a." ".e" 3 7 2) (KInt 1) = Ok "a.04.e"
  /\ getitem (init "" "a." ".e" 3 7 2) (KInt (-4)) = Ok "a.04.e"
  /\ getitem (init "" "a." ".e" 3 7 2) (KInt (-6)) = Raise IndexError.
Proof.
  pose proof (getitem_iter (init "" "a." ".e" 3 7 2) _ 1 eq_refl) as [H1 _].
  pose proof (getitem_iter (init "" "a." ".e" 3 7 2) _ (-6) eq_refl) as [_ H2].
  split; [|split].
  - apply H1. vm_compute. split; [discriminate | reflexivity].
  - apply H1. vm_compute. split; [discriminate | reflexivity].
  - apply H2; vm_compute; [discriminate | right; reflexivity].
Defined.

(** X3. From the number 0 on, two numbers never have the same file name,
    so that a sequence with [first >= 0] enumerates no name twice. *)
Theorem filename_injective (self : FileSequence) :
  (forall n m x, 0 <= n -> 0 <= m ->
     filename self n = Ok x -> filename self m = Ok x -> n = m)
  /\ (0 <= first self -> forall names, iter self = Ok names -> NoDup names).
Proof.
  assert (Hinj : forall n m x, 0 <= n -> 0 <= m ->
            filename self n = Ok x -> filename self m = Ok x -> n = m).
  { intros n m x Hn Hm H1 H2.
    pose proof (filename_ok_range _ _ _ H1) as Rn.
    pose proof (filename_ok_range _ _ _ H2) as Rm.
    rewrite filename_in_range in H1, H2 by assumption.
    rewrite <- H2 in H1. injection H1 as H1. now apply name_inj in H1. }
  split; [exact Hinj|].
  intros Hf names Hn. rewrite iter_ok in Hn. injection Hn as <-.
  apply NoDup_map_on; [|apply range_step_1_NoDup].
  intros x y Hx Hy E. apply range_step_1_In in Hx, Hy.
  apply (Hinj x y (head self ++ zfill (str x) (padding self) ++ tail self)%string);
    try lia.
  - apply filename_in_range. lia.
  - rewrite E. apply filename_in_range. lia.
Qed.

Lemma filename_injective_witness :
  NoDup ["a.08.e"; "a.09.e"; "a.10.e"].
Proof.
  apply (proj2 (filename_injective (init "" "a." ".e" 8 10 2))).
  - simpl. lia.
  - reflexivity.
Defined.

(** ** Slices *)

Lemma range_bounds (a b c i : Z) :
  In i (range a b c) ->
  (0 < c -> a <= i < b) /\ (c < 0 -> b < i <= a).
Proof.
  intros H. apply range_In in H as (k & Hk & ->). unfold range_count in Hk.
  split; intros Hc.
  - destruct (Z.ltb_spec 0 c); [|lia].
    pose proof (Z.mul_div_le (b - a + c - 1) c Hc).
    assert (Z.of_nat k + 1 <= (b - a + c - 1) / c) by lia. nia.
  - destruct (Z.ltb_spec 0 c); [lia|].
    pose proof (Z.mul_div_le (a - b - c - 1) (- c) ltac:(lia)).
    assert (Z.of_nat k + 1 <= (a - b - c - 1) / - c) by lia. nia.
Qed.

(** The indices of a slice lie in the sequence. *)
Lemma slice_indices_bounds (start_ stop_ step_ : option Z) (n a b c i : Z) :
  0 <= n ->
  slice_indices start_ stop_ step_ n = Ok (a, b, c) ->
  In i (range a b c) -> 0 <= i < n.
Proof.
  intros Hn H Hi. unfold slice_indices in H.
  set (c' := match step_ with None => 1 | Some c => c end) in *.
  destruct (Z.eqb_spec c' 0) as [|Hc]; [discriminate|].
  injection H as <- <- <-. apply range_bounds in Hi as [Hp Hm].
  destruct (Z.ltb_spec c' 0) as [Hneg|Hpos].
  - specialize (Hm Hneg). clear Hp.
    destruct start_ as [s|], stop_ as [t|];
      repeat match goal with
             | H : context [if ?x <? ?y then _ else _] |- _ =>
                 destruct (Z.ltb_spec x y)
             | H : context [if ?x <=? ?y then _ else _] |- _ =>
                 destruct (Z.leb_spec x y)
             end; lia.
  - assert (Hpos' : 0 < c') by lia. specialize (Hp Hpos'). clear Hm.
    destruct start_ as [s|], stop_ as [t|];
      repeat match goal with
             | H : context [if ?x <? ?y then _ else _] |- _ =>
                 destruct (Z.ltb_spec x y)
             | H : context [if ?x <=? ?y then _ else _] |- _ =>
                 destruct (Z.leb_spec x y)
             end; lia.
Qed.

Lemma mapM_getitem (self : FileSequence) (l : list Z) :
  (forall i, In i l -> 0 <= i < length self) ->
  mapM (fun i => getitem self (KInt i)) l
  = Ok (map (fun i => (head self ++ zfill (str (first self + i)) (padding self)
                       ++ tail self)%string) l).
Proof.
  induction l as [|i l IH]; intros H; [reflexivity|].
  cbn [mapM map].
  assert (Hi : 0 <= i < length self) by (apply H; now left).
  unfold getitem at 1. destruct (Z.leb_spec 0 i); [|lia].
  rewrite filename_in_range by (unfold length in Hi; lia). cbn [bind].
  rewrite IH by (intros j Hj; apply H; now right). reflexivity.
Qed.

(** X4. [__getitem__] on a slice key, for a sequence with
    [first <= last + 1], never raises [IndexError], however far the bounds
    of the slice lie outside of the sequence: it gives a list of names that
    indexing gives for positions inside the sequence. Only a step of 0 is
    an error, [ValueError]. *)
Theorem getitem_slice_safe (self : FileSequence) (start_ stop_ step_ : option Z) :
  first self <= last self + 1 ->
  (step_ <> Some 0 ->
   exists names,
     getitem_slice self start_ stop_ step_ = Ok names
     /\ forall x, In x names ->
          exists k, 0 <= k < length self /\ getitem self (KInt k) = Ok x)
  /\ (step_ = Some 0 ->
      getitem_slice self start_ stop_ step_ = Raise ValueError).
Proof.
  intros Hinv. unfold getitem_slice. rewrite len_self_ok by assumption.
  cbn [bind]. split.
  - intros Hstep.
    destruct (slice_indices start_ stop_ step_ (length self))
      as [[[a b] c]|e] eqn:E.
    + cbn [bind].
      assert (Hb : forall i, In i (range a b c) -> 0 <= i < length self)
        by (intros i;
            apply (slice_indices_bounds start_ stop_ step_ (length self) a b c);
            [unfold length; lia | exact E]).
      eexists. split; [now apply mapM_getitem|].
      intros x Hx. apply in_map_iff in Hx as (k & <- & Hk).
      exists k. split; [auto|]. unfold getitem.
      specialize (Hb k Hk). destruct (Z.leb_spec 0 k); [|lia].
      apply filename_in_range. unfold length in Hb. lia.
    + exfalso. unfold slice_indices in E.
      destruct step_ as [c|]; [|discriminate].
      destruct (Z.eqb_spec c 0); [subst; congruence | discriminate].
  - intros ->. reflexivity.
Qed.

Lemma getitem_slice_safe_witness :
  exists names,
    getitem_slice (init "" "a." ".e" 1 5 2) (Some 10) (Some (-10)) (Some (-2))
    = Ok names
    /\ forall x, In x names ->
         exists k, 0 <= k < length (init "" "a." ".e" 1 5 2)
                   /\ getitem (init "" "a." ".e" 1 5 2) (KInt k) = Ok x.
Proof.
  apply (getitem_slice_safe (init "" "a." ".e" 1 5 2)).
  - simpl. lia.
  - discriminate.
Defined.

Lemma seq_map_shift_gen {A : Type} (f : nat -> A) (n : nat) :
  map f (seq 0 (S n)) = f O :: map (fun k => f (S k)) (seq 0 n).
Proof. cbn [seq map]. now rewrite <- seq_shift, map_map. Qed.

Lemma rev_map_seq {A : Type} (g : nat -> A) (n : nat) :
  rev (map g (seq 0 n)) = map (fun k => g (n - 1 - k)%nat) (seq 0 n).
Proof.
  induction n as [|n IH]; [reflexivity|].
  assert (L : rev (map g (seq 0 (S n))) = g n :: rev (map g (seq 0 n)))
    by (rewrite seq_S, map_app, rev_app_distr; reflexivity).
  rewrite L, IH, seq_map_shift_gen. f_equal.
  - f_equal. lia.
  - apply map_ext. intros k. f_equal. lia.
Qed.

Lemma seq_add_map (a m : nat) : seq a m = map (Nat.add a) (seq 0 m).
Proof.
  revert a. induction m as [|m IH]; intros a; [reflexivity|].
  cbn [seq map]. f_equal; [lia|].
  rewrite (IH (S a)), <- seq_shift, map_map. apply map_ext. intros k. lia.
Qed.

Lemma firstn_seq_le (a m len : nat) :
  (m <= len)%nat -> firstn m (seq a len) = seq a m.
Proof.
  intros H. replace len with (m + (len - m))%nat by lia.
  rewrite seq_app, firstn_app, length_seq, Nat.sub_diag. cbn [firstn].
  rewrite List.app_nil_r. apply firstn_all2. rewrite length_seq. lia.
Qed.

(** The names of a sequence, by position. *)
Lemma iter_by_position (self : FileSequence) :
  iter self
  = Ok (map (fun k => (head self
                       ++ zfill (str (first self + Z.of_nat k)) (padding self)
                       ++ tail self)%string)
            (seq 0 (Z.to_nat (length self)))).
Proof.
  rewrite iter_ok, range_step_1, map_map. unfold length.
  now replace (last self + 1 - first self) with (last self - first self + 1) by lia.
Qed.

(** X5. On slice keys, [__getitem__] of a sequence with
    [first <= last + 1] slices the list of its names: the key
    [slice(None, None, None)] gives the enumeration, [slice(None, None, -1)]
    the enumeration backwards, and [slice(a, b, None)], for
    [0 <= a <= b <= len(self)], the names at the positions [a] to [b - 1]. *)
Theorem getitem_slice_iter (self : FileSequence) (names : list string) :
  first self <= last self + 1 ->
  iter self = Ok names ->
  getitem_slice self None None None = Ok names
  /\ getitem_slice self None None (Some (-1)) = Ok (rev names)
  /\ forall a b, 0 <= a <= b -> b <= length self ->
       getitem_slice self (Some a) (Some b) None
       = Ok (firstn (Z.to_nat (b - a)) (skipn (Z.to_nat a) names)).
Proof.
  intros Hinv Hn. rewrite iter_by_position in Hn. injection Hn as <-.
  set (g := fun k => (head self
                      ++ zfill (str (first self + Z.of_nat k)) (padding self)
                      ++ tail self)%string).
  set (n := Z.to_nat (length self)).
  assert (HL : 0 <= length self) by (unfold length; lia).
  unfold getitem_slice. rewrite len_self_ok by assumption. cbn [bind].
  split; [|split].
  - change (slice_indices None None None (length self))
      with (Ok (A:=Z * Z * Z) (0, length self, 1)). cbn [bind].
    rewrite mapM_getitem by (intros i Hi; apply range_step_1_In in Hi; lia).
    rewrite range_step_1, map_map, Z.sub_0_r. reflexivity.
  - change (slice_indices None None (Some (-1)) (length self))
      with (Ok (A:=Z * Z * Z) (length self - 1, -1, -1)). cbn [bind].
    rewrite mapM_getitem
      by (intros i Hi; apply range_bounds in Hi as [_ Hi]; lia).
    rewrite rev_map_seq. unfold range, range_count. cbn [Z.ltb Z.compare Z.opp].
    replace (Z.to_nat ((length self - 1 - -1 - -1 - 1) / 1)) with n
      by (rewrite Z.div_1_r; unfold n; lia).
    rewrite map_map. f_equal. apply map_ext_in. intros k Hk.
    apply in_seq in Hk. unfold g.
    replace (Z.of_nat (n - 1 - k)) with (length self - 1 + Z.of_nat k * -1)
      by (unfold n in *; lia).
    reflexivity.
  - intros a b Hab Hb.
    assert (E : slice_indices (Some a) (Some b) None (length self)
                = Ok (a, b, 1)).
    { assert (Ha : (a <? 0) = false) by (apply Z.ltb_ge; lia).
      assert (Hb' : (b <? 0) = false) by (apply Z.ltb_ge; lia).
      unfold slice_indices. cbv zeta.
      change (1 =? 0) with false. change (1 <? 0) with false. cbv iota.
      rewrite Ha, Hb'. cbv iota. rewrite Ha, Hb'. cbv iota.
      destruct (Z.leb_spec (length self) a), (Z.leb_spec (length self) b);
        repeat f_equal; lia. }
    rewrite E. cbn [bind].
    rewrite mapM_getitem by (intros i Hi; apply range_step_1_In in Hi; lia).
    f_equal. rewrite range_step_1, map_map.
    rewrite skipn_map, firstn_map, skipn_seq, firstn_seq_le by (unfold n; lia).
    rewrite (seq_add_map (0 + Z.to_nat a)), map_map.
    apply map_ext. intros k. unfold g.
    replace (Z.of_nat (0 + Z.to_nat a + k)) with (a + Z.of_nat k) by lia.
    reflexivity.
Qed.

Lemma getitem_slice_iter_witness :
  getitem_slice (init "" "a." ".e" 1 5 2) None None None
  = Ok ["a.01.e"; "a.02.e"; "a.03.e"; "a.04.e"; "a.05.e"]
  /\ getitem_slice (init "" "a." ".e" 1 5 2) (Some 1) (Some 3) None
     = Ok ["a.02.e"; "a.03.e"].
Proof.
  destruct (getitem_slice_iter (init "" "a." ".e" 1 5 2) _
              ltac:(simpl; lia) eq_refl) as (H1 & _ & H3).
  split; [exact H1|]. apply (H3 1 3); [lia | vm_compute; discriminate].
Defined.

(** ** The properties [name] and [extension] *)

Lemma dots_snoc (c : ascii) (k : nat) :
  string_of_list_ascii (repeat c (S k))
  = (string_of_list_ascii (repeat c k) ++ String c "")%string.
Proof.
  induction k as [|k IH]; [reflexivity|].
  change (string_of_list_ascii (repeat c (S (S k))))
    with (String c (string_of_list_ascii (repeat c (S k)))).
  rewrite IH at 1. reflexivity.
Qed.

Lemma rstrip_char (s : string) (c : ascii) :
  (exists k, s = (rstrip s (String c "")
                  ++ string_of_list_ascii (repeat c k))%string)
  /\ (forall p, rstrip s (String c "") <> (p ++ String c "")%string).
Proof.
  induction s as [|a s [[k Hk] Hend]].
  - split; [now exists O|]. intros [|x p]; discriminate.
  - cbn [rstrip list_ascii_of_string existsb].
    destruct (rstrip s (String c "")) as [|x r] eqn:E.
    + rewrite orb_false_r. destruct (Ascii.eqb_spec a c) as [->|Hac].
      * split; [exists (S k); simpl in *; now rewrite <- Hk|].
        intros [|y p]; discriminate.
      * split; [exists k; simpl in *; now rewrite <- Hk|].
        intros [|y p] H; [injection H as H; congruence|].
        injection H as _ H. destruct p; discriminate.
    + split; [exists k; simpl in *; now rewrite <- Hk|].
      intros [|y p] H; [discriminate|].
      injection H as _ H. now apply (Hend p).
Qed.

(** X6. The property [name] is the head without its trailing dots: the
    head is the name followed by dots only, the name does not end with a
    dot, and a head that does not end with a dot is its own name. *)
Theorem name_strips_dots (self : FileSequence) :
  (exists k,
     head self
     = (Attributes.name self ++ string_of_list_ascii (repeat "."%char k))%string)
  /\ (forall p, Attributes.name self <> (p ++ ".")%string)
  /\ ((forall p, head self <> (p ++ ".")%string) ->
      Attributes.name self = head self).
Proof.
  unfold Attributes.name.
  destruct (rstrip_char (head self) ".") as [[k Hk] Hend].
  split; [now exists k|]. split; [exact Hend|].
  intros Hno. destruct k as [|k].
  - simpl in Hk. now rewrite append_nil_r in Hk.
  - exfalso. rewrite dots_snoc, <- append_assoc in Hk. exact (Hno _ Hk).
Qed.

Lemma name_strips_dots_witness :
  Attributes.name (init "" "a_b" ".ext" 1 5 4) = "a_b".
Proof.
  apply (proj2 (proj2 (name_strips_dots (init "" "a_b" ".ext" 1 5 4)))).
  intros p H. simpl in H.
  repeat (destruct p as [|? p]; simpl in H; [discriminate H | injection H as _ H]).
  destruct p; discriminate.
Defined.

Lemma str_split_nonempty (s : string) (sep : ascii) : str_split s sep <> [].
Proof.
  destruct s as [|a s]; [discriminate|]. cbn [str_split].
  destruct (str_split s sep); [discriminate|].
  destruct (Ascii.eqb a sep); discriminate.
Qed.

Lemma str_split_single (s piece : string) (sep : ascii) :
  str_split s sep = [piece] -> s = piece.
Proof.
  revert piece. induction s as [|a s IH]; intros piece H; cbn [str_split] in H.
  - now injection H.
  - destruct (str_split s sep) as [|p ps] eqn:E;
      [now apply str_split_nonempty in E|].
    destruct (Ascii.eqb a sep); [discriminate|].
    injection H as <- ->. f_equal. now apply IH.
Qed.

Lemma str_split_no_sep (s : string) (sep : ascii) :
  ~ In sep (list_ascii_of_string s) -> str_split s sep = [s].
Proof.
  induction s as [|a s IH]; intros H; [reflexivity|].
  cbn [str_split]. rewrite IH by (intros Hs; apply H; now right).
  destruct (Ascii.eqb_spec a sep) as [->|]; [|reflexivity].
  exfalso. apply H. now left.
Qed.

Lemma str_split_last (s : string) (sep : ascii) :
  let e := List.last (str_split s sep) "" in
  ~ In sep (list_ascii_of_string e)
  /\ exists p, s = (p ++ e)%string
               /\ (p = "" \/ exists q, p = (q ++ String sep "")%string).
Proof.
  induction s as [|a s (Hno & p & Hs & Hp)]; cbv zeta in *.
  - split; [intros []|]. exists "". split; [reflexivity | now left].
  - cbn [str_split].
    destruct (str_split s sep) as [|piece pieces] eqn:E;
      [now apply str_split_nonempty in E|].
    destruct (Ascii.eqb_spec a sep) as [->|Hne].
    + change (List.last ("" :: piece :: pieces) "")
        with (List.last (piece :: pieces) "").
      split; [exact Hno|]. exists (String sep p).
      split; [cbn [append]; now f_equal|]. right.
      destruct Hp as [->|[q ->]]; [now exists "" | now exists (String sep q)].
    + destruct pieces as [|piece' pieces].
      * cbn [List.last] in *. apply str_split_single in E. subst piece.
        split; [intros [H|H]; [congruence | contradiction]|].
        exists "". split; [reflexivity | now left].
      * change (List.last (String a piece :: piece' :: pieces) "")
          with (List.last (piece :: piece' :: pieces) "").
        split; [exact Hno|]. exists (String a p).
        split; [cbn [append]; now f_equal|]. right.
        destruct Hp as [->|[q ->]]; [|now exists (String a q)].
        exfalso. simpl in Hs. rewrite Hs in E.
        rewrite str_split_no_sep in E by exact Hno. discriminate.
Qed.

(** X7. The property [extension] is what follows the last dot of the
    tail: it holds no dot, and the tail is the extension behind nothing or
    behind a piece that ends with a dot; a tail without a dot is its own
    extension, and so is the empty tail. *)
Theorem extension_after_last_dot (self : FileSequence) :
  ~ In "."%char (list_ascii_of_string (Attributes.extension self))
  /\ (exists p,
        tail self = (p ++ Attributes.extension self)%string
        /\ (p = "" \/ exists q, p = (q ++ ".")%string))
  /\ (~ In "."%char (list_ascii_of_string (tail self)) ->
      Attributes.extension self = tail self).
Proof.
  unfold Attributes.extension.
  destruct (str_split_last (tail self) ".") as [Hno Hp].
  split; [exact Hno|]. split; [exact Hp|].
  intros H. now rewrite str_split_no_sep.
Qed.

Lemma extension_after_last_dot_witness :
  Attributes.extension (init "" "a." "_v2" 1 5 4) = "_v2".
Proof.
  apply (proj2 (proj2 (extension_after_last_dot (init "" "a." "_v2" 1 5 4)))).
  simpl. intuition discriminate.
Defined.

(** ** Templates *)

Lemma format_with_text (d : list (string * value)) (text rest : string) :
  brace_free text ->
  format_with d (text ++ rest) None = subst text (format_with d rest None).
Proof.
  induction text as [|c text IH]; intros H.
  - simpl. destruct (format_with d rest None) as [[s|e]|]; reflexivity.
  - destruct (H c (or_introl eq_refl)) as [H1 H2].
    cbn [append format_with].
    apply Ascii.eqb_neq in H1, H2. rewrite H1, H2.
    rewrite IH by (intros c' Hc'; apply H; now right).
    destruct (format_with d rest None) as [[s|e]|]; reflexivity.
Qed.





(** X8. Called without arguments, [format] gives a [printf] pattern for the
    names of the sequence: the head, [%0], the padding in decimal, [d], and
    the tail, whatever the pad character. *)
Theorem format_default (self : FileSequence) (padchar : string) :
  first self <= last self + 1 ->
  format self default_template padchar
  = Some (Ok (head self ++ "%0" ++ str (padding self) ++ "d" ++ tail self)%string).
Proof.
  intros H. unfold format, values. rewrite len_self_ok by assumption.
  cbn [bind]. unfold default_template.
  cbn [format_with Ascii.eqb Bool.eqb append lookup String.eqb lit subst
       str_value plain_name_char is_digit negb orb].
  rewrite !append_nil_r. reflexivity.
Qed.

Lemma format_default_witness :
  format (init "" "my_sequence." ".ext" 1 5 4) default_template default_padchar
  = Some (Ok "my_sequence.%04d.ext").
Proof.
  apply (format_default (init "" "my_sequence." ".ext" 1 5 4)). simpl. lia.
Defined.

(** X9. How [format] reads a template, for a sequence with
    [first <= last + 1]: text without braces is copied, and a field
    [{name}] with one of the names [head], [tail], [first], [last],
    [length], [padding], [range], [path] is replaced by the value of that
    name, the numbers in plain decimal without padding. *)
Theorem format_compose (self : FileSequence) (padchar : string) :
  first self <= last self + 1 ->
  (forall text rest, brace_free text ->
     format self (text ++ rest) padchar
     = subst text (format self rest padchar))
  /\ (forall rest,
        format self ("{head}" ++ rest) padchar
        = subst (head self) (format self rest padchar)
        /\ format self ("{tail}" ++ rest) padchar
           = subst (tail self) (format self rest padchar)
        /\ format self ("{first}" ++ rest) padchar
           = subst (str (first self)) (format self rest padchar)
        /\ format self ("{last}" ++ rest) padchar
           = subst (str (last self)) (format self rest padchar)
        /\ format self ("{length}" ++ rest) padchar
           = subst (str (length self)) (format self rest padchar)
        /\ format self ("{padding}" ++ rest) padchar
           = subst (str (padding self)) (format self rest padchar)
        /\ format self ("{range}" ++ rest) padchar
           = subst (str (first self) ++ "-" ++ str (last self))
               (format self rest padchar)
        /\ format self ("{path}" ++ rest) padchar
           = subst (path self) (format self rest padchar)).
Proof.
  intros H. unfold format, values. rewrite len_self_ok by assumption.
  cbn [bind]. split.
  - intros text rest Ht. now apply format_with_text.
  - intros rest.
    cbn [format_with Ascii.eqb Bool.eqb append lookup String.eqb lit subst
         str_value plain_name_char is_digit negb orb join fold_right].
    rewrite !append_nil_r. repeat split.
Qed.

Lemma format_compose_witness :
  format (init "" "shot." ".exr" 1 20 4) "{head}{range}{tail}" "#"
  = Some (Ok "shot.1-20.exr").
Proof.
  pose proof (format_compose (init "" "shot." ".exr" 1 20 4) "#"
                ltac:(simpl; lia)) as [Ht Hf].
  destruct (Hf "{range}{tail}") as (Hh & _).
  destruct (Hf "{tail}") as (_ & _ & _ & _ & _ & _ & Hr & _).
  destruct (Hf "") as (_ & Htl & _).
  simpl append in Hh, Hr, Htl. rewrite Hh, Hr, Htl. reflexivity.
Defined.




(** * Further properties of the detector *)

(** ** The order of the input *)

Lemma sorted_perm_eq (l l' : list string) :
  StronglySorted le_str l -> StronglySorted le_str l' ->
  Permutation l l' -> l = l'.
Proof.
  revert l'. induction l as [|x l IH]; intros l' Hs Hs' Hp.
  - apply Permutation_nil in Hp. now subst.
  - destruct l' as [|y l'];
      [apply Permutation_sym, Permutation_nil in Hp; discriminate|].
    inversion Hs as [|? ? Hsl Hx]; subst.
    inversion Hs' as [|? ? Hsl' Hy]; subst.
    rewrite Forall_forall in Hx, Hy.
    assert (E : x = y).
    { assert (Hxin : In x (y :: l')) by (apply (Permutation_in _ Hp); now left).
      assert (Hyin : In y (x :: l))
        by (apply (Permutation_in _ (Permutation_sym Hp)); now left).
      destruct Hxin as [E|Hxin]; [now subst|].
      destruct Hyin as [E|Hyin]; [now subst|].
      apply le_str_antisym; auto. }
    subst y. f_equal. apply IH; auto.
    now apply Permutation_cons_inv in Hp.
Qed.

Lemma sort_permutation (l l' : list string) :
  Permutation l l' -> sort l = sort l'.
Proof.
  intros H. apply sorted_perm_eq; try apply sort_sorted.
  now rewrite !sort_perm.
Qed.

(** X11. The outcome of [find_in_list] does not depend on the order of the
    names it is given: two lists with the same names, as often, give the
    same sequences and the same other files, in the same order, or the
    same error. *)
Theorem find_in_list_order (maxint : Z) (l l' : list string) :
  Permutation l l' -> find_in_list maxint l = find_in_list maxint l'.
Proof.
  intros H. unfold find_in_list, find_in_list_run.
  now rewrite (sort_permutation l l' H), (Permutation_length H).
Qed.

Lemma find_in_list_order_witness :
  find_in_list (2 ^ 63 - 1) ["a2"; "x"; "a1"]
  = find_in_list (2 ^ 63 - 1) ["x"; "a1"; "a2"].
Proof.
  apply find_in_list_order.
  apply (Permutation_cons_app ["x"; "a1"] [] "a2"). reflexivity.
Defined.

(** ** The other files *)

Lemma sorted_snoc (l : list string) (x : string) :
  StronglySorted le_str l -> (forall y, In y l -> le_str y x) ->
  StronglySorted le_str (l ++ [x]).
Proof.
  induction 1 as [|y l Hl IH Hy]; intros H; simpl.
  - repeat constructor.
  - constructor; [apply IH; intros z Hz; apply H; now right|].
    apply Forall_app. split; [exact Hy|].
    constructor; [apply H; now left | constructor].
Qed.

Section Others.

Variable maxint : Z.

Lemma try_fields_incl (components : list string) (indices : list Z) :
  forall pool pool' sequence,
    try_fields maxint components indices pool = Ok (pool', sequence) ->
    (forall x, In x pool' -> In x pool)
    /\ (List.length pool' <= List.length pool)%nat.
Proof.
  induction indices as [|i indices IH]; intros pool pool' sequence H;
    simpl in H.
  - injection H as <- <-. auto.
  - destruct (try_field maxint components i pool) as [[[[pool2 f] l] p]|] eqn:E;
      cbn [bind] in H; [|discriminate].
    apply try_field_inv in E as (_ & up & down & pool1 & _ & H1 & _ & H2).
    apply run_generator_spec in H1 as (k1 & _ & Hl1 & _ & _ & Hi1 & _).
    apply run_generator_spec in H2 as (k2 & _ & Hl2 & _ & _ & Hi2 & _).
    destruct (negb (f - l =? 0)).
    + injection H as <- <-. split; [auto | lia].
    + apply IH in H as [Hi Hl]. split; [auto | lia].
Qed.

Lemma while_entries_others_sorted (fuel : nat) :
  forall st st',
    while_entries maxint fuel st = Ok st' ->
    StronglySorted le_str (entries st) ->
    StronglySorted le_str (other_files st) ->
    (forall o x, In o (other_files st) -> In x (entries st) -> le_str o x) ->
    StronglySorted le_str (other_files st').
Proof.
  induction fuel as [|fuel IH]; intros st st' H Hs Ho Hle; simpl in H.
  - now injection H as <-.
  - destruct (entries st) as [|entry pool] eqn:E; [now injection H as <-|].
    destruct (try_fields maxint (split entry) _ pool)
      as [[pool' sequence]|] eqn:Et; cbn [bind] in H; [|discriminate].
    inversion Hs as [|e p Hsp Hmin]; subst. rewrite Forall_forall in Hmin.
    pose proof (try_fields_sorted _ _ _ _ _ _ Et Hsp) as Hs'.
    destruct (try_fields_incl _ _ _ _ _ Et) as [Hincl _].
    destruct (match sequence with Some s => truth s | None => Ok false end)
      as [keep|]; cbn [bind] in H; [|discriminate].
    assert (Hother :
      StronglySorted le_str (other_files st ++ [entry])
      /\ forall o x, In o (other_files st ++ [entry]) -> In x pool' ->
           le_str o x).
    { split.
      - apply sorted_snoc; [exact Ho|]. intros y Hy. apply Hle; [exact Hy | now left].
      - intros o x Hin Hx. apply in_app_or in Hin as [Hin|[<-|[]]].
        + apply Hle; [exact Hin | right; auto].
        + auto. }
    destruct Hother as [Ho' Hle'].
    destruct sequence as [s|]; [destruct keep|]; apply IH in H; auto.
    cbn [other_files entries]. intros o x Hin Hx. apply Hle; [exact Hin | right; auto].
Qed.

End Others.

(** X12. The other files come back in ascending order, whatever the order
    of the input. *)
Theorem find_in_list_others_sorted (maxint : Z) (entries_ : list string)
    (seqs : list FileSequence) (others : list string) :
  find_in_list maxint entries_ = Ok (seqs, others) ->
  StronglySorted le_str others.
Proof.
  intros H. apply find_in_list_inv in H as (st & Hrun & _ & <-).
  apply while_entries_others_sorted in Hrun; cbn [entries other_files] in *.
  - exact Hrun.
  - apply sort_sorted.
  - constructor.
  - intros o x [].
Qed.

Lemma find_in_list_others_sorted_witness :
  StronglySorted le_str ["b"; "c7"; "z"].
Proof.
  apply (find_in_list_others_sorted (2 ^ 63 - 1) ["z"; "a2"; "c7"; "a1"; "b"]
           [init "" "a" "" 1 2 0]).
  vm_compute. reflexivity.
Defined.

(** ** How many names *)

Lemma concat_iter_length (seqs : list FileSequence) :
  forall names,
    Forall detected seqs -> mapM iter seqs = Ok names ->
    Z.of_nat (List.length (List.concat names))
    = fold_right Z.add 0 (map length seqs).
Proof.
  induction seqs as [|s seqs IH]; intros names Hd H; simpl in H.
  - now injection H as <-.
  - inversion Hd as [|s' l' (_ & _ & Hlt) Hd']; subst.
    destruct (iter s) as [ns|] eqn:Es; cbn [bind] in H; [|discriminate].
    destruct (mapM iter seqs) as [nss|]; cbn [bind] in H; [|discriminate].
    injection H as <-. simpl. rewrite length_app, Nat2Z.inj_add.
    rewrite (IH nss Hd' eq_refl), (iter_length _ _ Es). unfold length. lia.
Qed.

(** X13. Every name of the input is counted once: the lengths [len(s)] of
    the sequences returned and the number of other files add up to the
    number of names given, also when a name is given more than once. *)
Theorem find_in_list_counts (maxint : Z) (entries_ : list string)
    (seqs : list FileSequence) (others : list string) :
  find_in_list maxint entries_ = Ok (seqs, others) ->
  fold_right Z.add 0 (map length seqs) + Z.of_nat (List.length others)
  = Z.of_nat (List.length entries_).
Proof.
  intros H. apply find_in_list_inv in H as (st & Hrun & <- & <-).
  apply find_in_list_run_spec in Hrun as (_ & Hd & names & Hn & Hp).
  rewrite <- (concat_iter_length _ _ Hd Hn), <- (Permutation_length Hp).
  rewrite length_app. lia.
Qed.

Lemma find_in_list_counts_witness :
  fold_right Z.add 0 (map length [init "" "a" "" 1 3 0; init "" "b" ".x" 7 8 2])
  + Z.of_nat (List.length ["a2"; "c"])
  = Z.of_nat (List.length ["a2"; "b07.x"; "a1"; "c"; "a3"; "b08.x"; "a2"]).
Proof.
  apply (find_in_list_counts (2 ^ 63 - 1)). vm_compute. reflexivity.
Defined.

(** ** Errors *)

Section Errors.

Variable maxint : Z.

Lemma adjacent_files_raise (pool components : list string) (index padding_ : Z)
    (reverse : bool) (e : error) :
  adjacent_files maxint pool components index padding_ reverse = Raise e ->
  e = OverflowError.
Proof.
  unfold adjacent_files, xrange.
  destruct reverse;
    match goal with
    | |- context [if ?b then _ else _] => destruct b
    end; cbn [bind]; congruence.
Qed.

Lemma try_field_raise (components : list string) (i : Z) (pool : list string)
    (e : error) :
  try_field maxint components i pool = Raise e -> e = OverflowError.
Proof.
  unfold try_field.
  destruct (adjacent_files maxint pool components i _ false) as [up|e1] eqn:E1;
    cbn [bind].
  - destruct (run_generator up pool _) as [pool1 last_].
    destruct (adjacent_files maxint pool1 components i _ true) as [down|e2] eqn:E2;
      cbn [bind].
    + destruct (run_generator down pool1 _). discriminate.
    + intros [= <-]. exact (adjacent_files_raise _ _ _ _ _ _ E2).
  - intros [= <-]. exact (adjacent_files_raise _ _ _ _ _ _ E1).
Qed.

Lemma try_fields_raise (components : list string) (indices : list Z) :
  forall pool e,
    try_fields maxint components indices pool = Raise e -> e = OverflowError.
Proof.
  induction indices as [|i indices IH]; intros pool e H; simpl in H;
    [discriminate|].
  destruct (try_field maxint components i pool) as [[[[pool2 f] l] p]|e1] eqn:E;
    cbn [bind] in H.
  - destruct (negb (f - l =? 0)); [discriminate | exact (IH _ _ H)].
  - injection H as <-. exact (try_field_raise _ _ _ _ E).
Qed.

Lemma while_entries_raise (fuel : nat) :
  forall st e, while_entries maxint fuel st = Raise e -> e = OverflowError.
Proof.
  induction fuel as [|fuel IH]; intros st e H; simpl in H; [discriminate|].
  destruct (entries st) as [|entry pool]; [discriminate|].
  destruct (try_fields maxint (split entry) _ pool)
    as [[pool' sequence]|e1] eqn:Et; cbn [bind] in H.
  - pose proof (try_fields_spec maxint (split entry) (split_comps entry) _ _ _ _
                  (fun i Hi => Hi) Et) as Hs.
    destruct sequence as [s|].
    + destruct Hs as (Hd & _). rewrite (truth_detected s Hd) in H.
      cbn [bind] in H. exact (IH _ _ H).
    + cbn [bind] in H. exact (IH _ _ H).
  - injection H as <-. exact (try_fields_raise _ _ _ _ Et).
Qed.

End Errors.

(** X14. The only exception [find_in_list] raises is the [OverflowError]
    of [xrange]: the truth test [if sequence], which calls [len], never
    raises [ValueError] there. *)
Theorem find_in_list_raises (maxint : Z) (entries_ : list string) (e : error) :
  find_in_list maxint entries_ = Raise e -> e = OverflowError.
Proof.
  unfold find_in_list, find_in_list_run.
  destruct (while_entries maxint _ _) as [st|e1] eqn:E; cbn [bind];
    [discriminate|].
  intros [= <-]. exact (while_entries_raise _ _ _ _ E).
Qed.

Lemma find_in_list_raises_witness :
  find_in_list (2 ^ 31 - 1) ["a1"; "take.4294967296.exr"] = Raise OverflowError
  /\ OverflowError = OverflowError.
Proof.
  split; [vm_compute; reflexivity|].
  apply (find_in_list_raises (2 ^ 31 - 1) ["a1"; "take.4294967296.exr"]).
  vm_compute. reflexivity.
Defined.

(** X15. [find_in_list] returns, without an exception, on every list of
    names whose digit runs are small numbers: each of them, plus the number
    of names plus one, is [sys.maxint] at most. *)
Theorem find_in_list_small_numbers (maxint : Z) (entries_ : list string) :
  (forall e, In e entries_ ->
     forall n, In n (counters e) ->
       n + Z.of_nat (List.length entries_) + 1 <= maxint) ->
  exists seqs others, find_in_list maxint entries_ = Ok (seqs, others).
Proof. apply find_in_list_returns. Qed.

Lemma find_in_list_small_numbers_witness :
  exists seqs others,
    find_in_list (2 ^ 31 - 1) ["shot12_v003.0101.exr"; "shot12_v003.0102.exr"]
    = Ok (seqs, others).
Proof.
  apply find_in_list_small_numbers.
  intros e He n Hn. simpl in He.
  destruct He as [<-|[<-|[]]]; vm_compute in Hn;
    repeat (destruct Hn as [<-|Hn]; [vm_compute; discriminate|]);
    contradiction.
Defined.

(** X16. What [find_in_list] and [find] return with one [sys.maxint] they
    return with every larger one: an outcome does not depend on the
    platform, unless it is an [OverflowError]. *)
Theorem find_larger_maxint (maxint maxint' : Z) (listing : list string)
    (search_path : string) (r : list FileSequence * list string) :
  maxint <= maxint' ->
  (find_in_list maxint listing = Ok r -> find_in_list maxint' listing = Ok r)
  /\ (find maxint listing search_path = Ok r ->
      find maxint' listing search_path = Ok r).
Proof.
  intros Hle. split; [apply (find_in_list_mono _ _ Hle)|].
  unfold find.
  destruct (find_in_list maxint listing) as [[seqs others]|] eqn:E;
    cbn [bind]; [|discriminate].
  now rewrite (find_in_list_mono _ _ Hle _ _ E).
Qed.

Lemma find_larger_maxint_witness :
  find_in_list (2 ^ 63 - 1) ["b"; "a.7"; "a.8"]
  = Ok ([init "" "a." "" 7 8 0], ["b"])
  /\ find (2 ^ 63 - 1) ["b"; "a.7"; "a.8"] "/stuff"
     = Ok ([set_path "/stuff" (init "" "a." "" 7 8 0)], ["b"]).
Proof.
  destruct (find_larger_maxint (2 ^ 31 - 1) (2 ^ 63 - 1) ["b"; "a.7"; "a.8"]
              "/stuff" ([init "" "a." "" 7 8 0], ["b"]) ltac:(lia)) as [H1 _].
  destruct (find_larger_maxint (2 ^ 31 - 1) (2 ^ 63 - 1) ["b"; "a.7"; "a.8"]
              "/stuff" ([set_path "/stuff" (init "" "a." "" 7 8 0)], ["b"])
              ltac:(lia)) as [_ H2].
  split; [apply H1 | apply H2]; vm_compute; reflexivity.
Defined.

(** ** [find] *)

Lemma mapM_iter_set_path (search_path : string) (seqs : list FileSequence) :
  mapM iter (map (set_path search_path) seqs) = mapM iter seqs.
Proof.
  induction seqs as [|s seqs IH]; simpl; [reflexivity|].
  rewrite IH. reflexivity.
Qed.

Lemma set_path_back (search_path : string) (seqs : list FileSequence) :
  Forall detected seqs ->
  map (set_path "") (map (set_path search_path) seqs) = seqs.
Proof.
  induction 1 as [|s seqs (Hp & _) _ IH]; simpl; [reflexivity|].
  rewrite IH. f_equal. destruct s; simpl in *. now subst.
Qed.

(** X17. [find] returns what [find_in_list] returns on the listing of the
    directory, but for the path of the sequences; the names its sequences
    enumerate are the bare names of the listing, without the search path,
    and with the other files they make up the listing. *)
Theorem find_names (maxint : Z) (listing : list string) (search_path : string)
    (seqs : list FileSequence) (others : list string) :
  find maxint listing search_path = Ok (seqs, others) ->
  find_in_list maxint listing = Ok (map (set_path "") seqs, others)
  /\ exists names,
       mapM iter seqs = Ok names
       /\ Permutation (List.concat names ++ others) listing.
Proof.
  unfold find.
  destruct (find_in_list maxint listing) as [[seqs0 others0]|] eqn:E;
    cbn [bind]; [|discriminate].
  intros [= <- <-].
  apply find_in_list_inv in E as (st & Hrun & <- & <-).
  apply find_in_list_run_spec in Hrun as (_ & Hd & names & Hn & Hp).
  split.
  - now rewrite (set_path_back _ _ Hd).
  - exists names. split; [|exact Hp]. now rewrite mapM_iter_set_path.
Qed.

Lemma find_names_witness :
  find_in_list (2 ^ 63 - 1) ["b"; "a.7"; "a.8"]
  = Ok (map (set_path "") [set_path "/stuff" (init "" "a." "" 7 8 0)], ["b"])
  /\ exists names,
       mapM iter [set_path "/stuff" (init "" "a." "" 7 8 0)] = Ok names
       /\ Permutation (List.concat names ++ ["b"]) ["b"; "a.7"; "a.8"].
Proof.
  apply (find_names (2 ^ 63 - 1) ["b"; "a.7"; "a.8"] "/stuff").
  vm_compute. reflexivity.
Defined.

(** ** Names without a counter *)

Lemma split_no_digit (s : string) : no_digit s = true -> split s = [s].
Proof.
  induction s as [|c s IH]; simpl; [reflexivity|].
  intros H. apply andb_prop in H as [Hc Hs]. rewrite (IH Hs).
  now destruct (is_digit c).
Qed.

Lemma while_entries_no_digit (maxint : Z) (fuel : nat) :
  forall st,
    (List.length (entries st) <= fuel)%nat ->
    Forall (fun e => no_digit e = true) (entries st) ->
    while_entries maxint fuel st
    = Ok {| entries := []; sequences := sequences st;
            other_files := other_files st ++ entries st |}.
Proof.
  induction fuel as [|fuel IH]; intros [pool seqs others] Hfuel Hnd;
    cbn [entries sequences other_files] in *.
  - destruct pool; simpl in Hfuel; [|lia]. simpl. now rewrite List.app_nil_r.
  - destruct pool as [|entry pool]; [simpl; now rewrite List.app_nil_r|].
    inversion Hnd as [|e p He Hp]; subst.
    cbn [while_entries entries sequences other_files].
    rewrite (split_no_digit entry He).
    change (range (Z.of_nat (List.length [entry]) - 2) 0 (-2)) with (@nil Z).
    cbn [try_fields bind].
    rewrite IH; cbn [entries sequences other_files]; [|simpl in Hfuel; lia|exact Hp].
    now rewrite <- List.app_assoc.
Qed.

(** X18. Names without a digit are never part of a sequence, and ask
    nothing of [xrange]: given only such names, [find_in_list] returns,
    whatever [sys.maxint] is, no sequence and all the names, sorted, as
    other files. *)
Theorem find_in_list_no_digit (maxint : Z) (entries_ : list string) :
  Forall (fun e => no_digit e = true) entries_ ->
  find_in_list maxint entries_ = Ok ([], sort entries_).
Proof.
  intros H. unfold find_in_list, find_in_list_run.
  rewrite while_entries_no_digit; cbn [entries sequences other_files bind].
  - reflexivity.
  - now rewrite (Permutation_length (sort_perm entries_)).
  - rewrite Forall_forall in *. intros e He. apply H.
    exact (Permutation_in _ (sort_perm entries_) He).
Qed.

Lemma find_in_list_no_digit_witness :
  find_in_list 0 ["notes.txt"; "Makefile"; "README"]
  = Ok ([], sort ["notes.txt"; "Makefile"; "README"]).
Proof.
  apply find_in_list_no_digit. repeat constructor.
Defined.

(** ** The other files, given again *)

Section Alone.

Variable maxint : Z.

Lemma try_fields_none (components : list string) :
  comps components ->
  forall indices pool pool',
    (forall i, In i indices ->
       In i (range (Z.of_nat (List.length components) - 2) 0 (-2))) ->
    try_fields maxint components indices pool = Ok (pool', None) ->
    forall i, In i indices ->
      exists n p, try_field maxint components i pool = Ok (pool, n, n, p).
Proof.
  intros Hc. induction indices as [|i indices IH]; intros pool pool' Hin H j Hj;
    [destruct Hj|]. simpl in H.
  destruct (try_field maxint components i pool) as [[[[pool2 f] l] p]|] eqn:E;
    cbn [bind] in H; [|discriminate].
  destruct (Z.eqb_spec (f - l) 0) as [Hfl|Hfl]; cbn [negb] in H; [|discriminate].
  assert (f = l) by lia. subst l.
  destruct (field_indices components i Hc (Hin i (or_introl eq_refl)))
    as (Hi0 & Hil & Hd).
  destruct (try_field_spec maxint components i pool pool2 f f p Hi0 Hil Hd E)
    as (_ & _ & Hsame & _).
  rewrite (Hsame eq_refl) in *.
  destruct Hj as [<-|Hj]; [now exists f, p|].
  apply (IH pool pool'); auto. intros k Hk. apply Hin. now right.
Qed.

Lemma alone_smaller (entry : string) (pool rest : list string) :
  alone maxint entry pool ->
  (forall x, In x rest -> In x pool) ->
  (List.length rest <= List.length pool)%nat ->
  alone maxint entry rest.
Proof.
  intros Ha Hincl Hlen i Hi. destruct (Ha i Hi) as (n & p & E).
  exists n, p.
  destruct (field_indices (split entry) i (split_comps entry) Hi) as (_ & _ & Hd).
  exact (try_field_fail_smaller maxint _ _ _ _ _ _ Hd E Hincl Hlen).
Qed.

Lemma while_entries_lone (fuel : nat) :
  forall l seqs others,
    lone maxint l -> (List.length l <= fuel)%nat ->
    while_entries maxint fuel
      {| entries := l; sequences := seqs; other_files := others |}
    = Ok {| entries := []; sequences := seqs; other_files := others ++ l |}.
Proof.
  induction fuel as [|fuel IH]; intros l seqs others Hl Hfuel.
  - destruct l; simpl in Hfuel; [|lia]. simpl. now rewrite List.app_nil_r.
  - destruct Hl as [|entry rest pool Ha Hincl Hlen Hl];
      [simpl; now rewrite List.app_nil_r|].
    cbn [while_entries entries sequences other_files].
    pose proof (alone_smaller _ _ _ Ha Hincl Hlen) as Ha'.
    rewrite <- (List.app_nil_r (range _ 0 (-2))).
    rewrite (try_fields_skip maxint (split entry) _ [] rest Ha').
    cbn [try_fields bind].
    rewrite IH; [|exact Hl|simpl in Hfuel; lia].
    now rewrite <- List.app_assoc.
Qed.

Lemma while_entries_lone_so_far (fuel : nat) :
  forall st st',
    while_entries maxint fuel st = Ok st' ->
    (List.length (entries st) <= fuel)%nat ->
    lone_so_far maxint st -> lone_so_far maxint st' /\ entries st' = [].
Proof.
  induction fuel as [|fuel IH]; intros st st' H Hfuel Hinv; simpl in H.
  - injection H as <-. split; [exact Hinv|].
    destruct (entries st); simpl in Hfuel; [reflexivity | lia].
  - destruct (entries st) as [|entry pool] eqn:E;
      [injection H as <-; now split|].
    destruct (try_fields maxint (split entry) _ pool)
      as [[pool' sequence]|] eqn:Et; cbn [bind] in H; [|discriminate].
    destruct (try_fields_incl maxint _ _ _ _ _ Et) as [Hincl Hlen].
    pose proof (try_fields_spec maxint (split entry) (split_comps entry) _ _ _ _
                  (fun i Hi => Hi) Et) as Hs.
    simpl in Hfuel.
    destruct sequence as [s|].
    + destruct Hs as (Hd & _). rewrite (truth_detected s Hd) in H.
      cbn [bind] in H. apply IH in H; cbn [entries other_files]; [exact H|lia|].
      unfold lone_so_far; cbn [entries other_files].
      intros A o B HB. destruct (Hinv A o B HB) as (P & Ha & Hin & Hl).
      exists P. split; [exact Ha|]. rewrite E in *. split.
      * intros x Hx. apply Hin. apply in_app_or in Hx as [Hx|Hx];
          apply in_or_app; [now left | right; right; auto].
      * simpl in Hl. lia.
    + subst pool'. cbn [bind] in H.
      pose proof (try_fields_none (split entry) (split_comps entry) _ _ _
                    (fun i Hi => Hi) Et) as Ha.
      apply IH in H; cbn [entries other_files]; [exact H|lia|].
      unfold lone_so_far; cbn [entries other_files].
      intros A o B HB.
      destruct (exists_last (l := o :: B) ltac:(discriminate)) as (B0 & x & HB0).
      destruct B as [|b B].
      * apply app_inj_tail in HB as [_ <-].
        exists pool. split; [exact Ha|]. split; [auto | simpl; lia].
      * destruct B0 as [|o' B0]; [discriminate HB0|].
        simpl in HB0. injection HB0 as <- HB0.
        rewrite HB0 in *.
        change (A ++ o :: B0 ++ [x]) with (A ++ (o :: B0) ++ [x]) in HB.
        rewrite List.app_assoc in HB. apply app_inj_tail in HB as [HB <-].
        destruct (Hinv A o B0 HB) as (P & HaP & Hin & Hl).
        exists P. split; [exact HaP|]. rewrite E in *. split.
        -- intros y Hy. apply Hin. rewrite <- List.app_assoc in Hy. exact Hy.
        -- rewrite length_app. simpl in *. lia.
Qed.

Lemma lone_so_far_lone (l : list string) :
  (forall A o B,
     l = A ++ o :: B ->
     exists pool,
       alone maxint o pool
       /\ (forall x, In x B -> In x pool)
       /\ (List.length B <= List.length pool)%nat) ->
  lone maxint l.
Proof.
  induction l as [|o l IH]; intros H; [constructor|].
  destruct (H [] o l eq_refl) as (P & Ha & Hin & Hl).
  apply (lone_cons maxint o l P Ha Hin Hl).
  apply IH. intros A o' B ->. exact (H (o :: A) o' B eq_refl).
Qed.

End Alone.

(** X19. The other files are stable: given again to [find_in_list], with
    the same [sys.maxint], they all come back as other files, in the same
    order, and no sequence is found among them. *)
Theorem find_in_list_others_again (maxint : Z) (entries_ : list string)
    (seqs : list FileSequence) (others : list string) :
  find_in_list maxint entries_ = Ok (seqs, others) ->
  find_in_list maxint others = Ok ([], others).
Proof.
  intros H.
  apply find_in_list_inv in H as (st & Hrun & _ & <-).
  assert (Hsorted : StronglySorted le_str (other_files st)).
  { apply while_entries_others_sorted in Hrun; cbn [entries other_files] in *;
      [exact Hrun | apply sort_sorted | constructor | intros o x []]. }
  apply while_entries_lone_so_far in Hrun; cbn [entries other_files] in *.
  - destruct Hrun as [Hinv He].
    assert (Hl : lone maxint (other_files st)).
    { apply lone_so_far_lone. intros A o B HB.
      destruct (Hinv A o B HB) as (P & Ha & Hin & Hlen). rewrite He in *.
      exists P. split; [exact Ha|]. split.
      - intros x Hx. apply Hin. now rewrite List.app_nil_r.
      - simpl in Hlen. lia. }
    unfold find_in_list, find_in_list_run.
    assert (Es : sort (other_files st) = other_files st).
    { apply sorted_perm_eq; [apply sort_sorted | exact Hsorted | apply sort_perm]. }
    rewrite Es, (while_entries_lone maxint _ _ [] [] Hl (le_n _)).
    reflexivity.
  - now rewrite (Permutation_length (sort_perm entries_)).
  - intros A o B HB. destruct A; discriminate HB.
Qed.

Lemma find_in_list_others_again_witness :
  find_in_list (2 ^ 63 - 1) ["a3"; "b10"; "b8"; "c"]
  = Ok ([], ["a3"; "b10"; "b8"; "c"]).
Proof.
  apply (find_in_list_others_again (2 ^ 63 - 1)
           ["b8"; "a1"; "c"; "a3"; "a0"; "b10"] [init "" "a" "" 0 1 1]).
  vm_compute. reflexivity.
Defined.

(** ** The counter of a sequence *)

Lemma no_digit_first (s : string) : no_digit s = true -> starts_without_digit s.
Proof.
  destruct s as [|c s]; simpl; [trivial|].
  intros H. apply andb_prop in H as [Hc _]. now destruct (is_digit c).
Qed.

Lemma no_digit_last (s : string) :
  no_digit s = true -> s <> "" ->
  exists (p : string) (c : ascii),
    s = (p ++ String c "")%string /\ is_digit c = false.
Proof.
  induction s as [|c s IH]; intros H Hn; [congruence|].
  simpl in H. apply andb_prop in H as [Hc Hs].
  destruct s as [|c' s'].
  - exists "", c. split; [reflexivity | now destruct (is_digit c)].
  - destruct (IH Hs ltac:(discriminate)) as (p & c2 & E & Hc2).
    exists (String c p), c2. split; [|exact Hc2]. simpl. now rewrite <- E.
Qed.

Lemma split_pieces (s : string) : pieces (split s).
Proof.
  induction s as [|c s IH]; simpl; [now constructor|].
  destruct IH as [literal Hl|literal d l Hl Hd Hp Hside].
  - destruct (is_digit c) eqn:Ec.
    + destruct literal as [|c' literal'];
        (apply pieces_cons;
         [reflexivity
         | split; [discriminate | simpl; now rewrite Ec]
         | now constructor
         | now left]).
    + constructor. simpl. now rewrite Ec.
  - destruct (is_digit c) eqn:Ec.
    + destruct literal as [|c' literal'].
      * apply pieces_cons; [reflexivity | | exact Hp | exact Hside].
        destruct Hd as [_ Hd]. split; [discriminate | simpl; now rewrite Ec, Hd].
      * apply pieces_cons;
          [reflexivity
          | split; [discriminate | simpl; now rewrite Ec]
          | now apply pieces_cons
          | right; discriminate].
    + apply pieces_cons; [simpl; now rewrite Ec | exact Hd | exact Hp | exact Hside].
Qed.

Lemma pieces_length (l : list string) : pieces l -> (1 <= List.length l)%nat.
Proof. destruct 1; simpl; lia. Qed.

Lemma pieces_join_start (l : list string) :
  pieces l -> List.length l = 1%nat \/ hd "" l <> "" ->
  starts_without_digit (join l).
Proof.
  intros [literal Hl|literal d l' Hl Hd Hp _] Hside.
  - simpl. rewrite append_nil_r. now apply no_digit_first.
  - destruct Hside as [Hside|Hside];
      [apply pieces_length in Hp; simpl in Hside; lia|].
    simpl in Hside. destruct literal as [|c literal']; [congruence|].
    simpl in *. apply andb_prop in Hl as [Hc _]. now destruct (is_digit c).
Qed.

Lemma pieces_tail (l : list string) :
  pieces l ->
  forall k : nat, (2 * k + 1 < List.length l)%nat ->
    starts_without_digit (join (skipn (2 * k + 2) l)).
Proof.
  induction 1 as [literal Hl|literal d l Hl Hd Hp IH Hside]; intros k Hk;
    [simpl in Hk; lia|].
  destruct k as [|k].
  - simpl. now apply pieces_join_start.
  - replace (2 * S k + 2)%nat with (S (S (2 * k + 2))) by lia.
    cbn [skipn]. apply IH. simpl in Hk. lia.
Qed.

Lemma pieces_head (l : list string) :
  pieces l ->
  forall k : nat, (2 * k + 1 < List.length l)%nat ->
    ends_without_digit (join (firstn (2 * k + 1) l))
    /\ (hd "" l <> "" -> join (firstn (2 * k + 1) l) <> "").
Proof.
  induction 1 as [literal Hl|literal d l Hl Hd Hp IH Hside]; intros k Hk;
    [simpl in Hk; lia|].
  destruct k as [|k].
  - simpl. rewrite append_nil_r. split; [|auto].
    destruct literal as [|c literal'] eqn:E; [now left|].
    right. rewrite <- E in *. apply no_digit_last; [exact Hl | now subst].
  - assert (Hk' : (2 * k + 1 < List.length l)%nat) by (simpl in Hk; lia).
    destruct (IH k Hk') as (Hend & Hne).
    assert (Hhd : hd "" l <> "") by (destruct Hside as [Hside|Hside]; [lia | exact Hside]).
    replace (2 * S k + 1)%nat with (S (S (2 * k + 1))) by lia.
    cbn [firstn]. rewrite !join_cons.
    destruct Hend as [Hend|(p & c & E & Hc)]; [now apply Hne in Hend|].
    assert (E' : (literal ++ d ++ join (firstn (2 * k + 1) l))%string
                 = ((literal ++ d ++ p) ++ String c "")%string)
      by (now rewrite E, !append_assoc).
    rewrite E'. split.
    + right. now exists (literal ++ d ++ p)%string, c.
    + intros _. now destruct (literal ++ d ++ p)%string.
Qed.

Lemma field_index_odd (l : list string) (i : Z) :
  comps l -> In i (range (Z.of_nat (List.length l) - 2) 0 (-2)) ->
  exists k : nat,
    Z.to_nat i = (2 * k + 1)%nat /\ Z.to_nat (i + 1) = (2 * k + 2)%nat
    /\ (2 * k + 1 < List.length l)%nat.
Proof.
  intros Hl Hi. destruct (comps_length l Hl) as [m Hm].
  apply range_In in Hi as [k [Hk ->]].
  unfold range_count in Hk. simpl in Hk. rewrite Hm in *.
  replace (Z.of_nat (2 * m + 1) - 2 - 0 - -2 - 1) with (Z.of_nat m * 2) in Hk by lia.
  rewrite Z.div_mul in Hk by lia.
  exists (m - 1 - k)%nat. lia.
Qed.

Lemma int_no_zero_prefix (c : string) :
  digit_run c -> startswith c "0" = false -> 1 <= int c.
Proof.
  intros Hc Hs. destruct (zfill_digit_run c Hc) as [Hz Hn].
  rewrite Hs in Hz.
  destruct (Z.eq_dec (int c) 0) as [E|E]; [|lia].
  rewrite E in Hz. vm_compute in Hz. subst c. discriminate Hs.
Qed.

(** X20. The counter of a sequence [find_in_list] returns is a whole run
    of digits of the names: the head does not end with a digit and the tail
    does not start with one. Neither its first number nor its padding is
    negative; and an unpadded sequence starts at 1 at least, the search
    downwards stopping before 0. *)
Theorem find_in_list_counter (maxint : Z) (entries_ : list string)
    (seqs : list FileSequence) (others : list string) :
  find_in_list maxint entries_ = Ok (seqs, others) ->
  Forall (fun s =>
            ends_without_digit (head s)
            /\ starts_without_digit (tail s)
            /\ 0 <= first s
            /\ 0 <= padding s
            /\ (padding s = 0 -> 1 <= first s)) seqs.
Proof.
  intros H. apply find_in_list_origin in H.
  apply (Forall_impl _ (P := origin maxint)); [|exact H].
  intros s (entry & pool & pool2 & pre & i & post & Hr & _ & Ht & _ & Hs & _).
  assert (Hi : In i (range (Z.of_nat (List.length (split entry)) - 2) 0 (-2)))
    by (rewrite Hr; apply in_elt).
  pose proof (split_comps entry) as Hc.
  destruct (field_indices _ _ Hc Hi) as (Hi0 & Hil & Hd).
  destruct (field_index_odd _ _ Hc Hi) as (k & Ek & Ek1 & Hk).
  destruct (try_field_spec maxint _ _ _ _ _ _ _ Hi0 Hil Hd Ht)
    as (Hf & [HfN _] & _).
  destruct (try_field_bounds maxint _ _ _ _ _ _ _ Hd Ht) as [_ Hdown].
  apply try_field_inv in Ht as (Hp & _).
  assert (Hh : head s = join (firstn (2 * k + 1) (split entry)))
    by (rewrite Hs, <- Ek; reflexivity).
  assert (Htl : tail s = join (skipn (2 * k + 2) (split entry)))
    by (rewrite Hs, <- Ek1; reflexivity).
  rewrite Hh, Htl.
  split; [exact (proj1 (pieces_head _ (split_pieces entry) k Hk))|].
  split; [exact (pieces_tail _ (split_pieces entry) k Hk)|].
  split; [exact Hf|].
  destruct (startswith (nth (Z.to_nat i) (split entry) "") "0") eqn:Esw.
  - pose proof (len_nonneg (nth (Z.to_nat i) (split entry) "")) as Hlen.
    split; [lia|]. intros Hp0. exfalso.
    destruct Hd as [Hne _]. unfold len in *.
    destruct (nth (Z.to_nat i) (split entry) ""); [congruence | simpl in *; lia].
  - split; [lia|]. intros _.
    pose proof (int_no_zero_prefix _ Hd Esw) as HN.
    destruct (Z.eq_dec (first s) (int (nth (Z.to_nat i) (split entry) "")))
      as [E|E]; [lia|].
    cbv zeta in Hdown, HfN. specialize (Hdown ltac:(lia)). lia.
Qed.

Lemma find_in_list_counter_witness :
  Forall (fun s =>
            ends_without_digit (head s)
            /\ starts_without_digit (tail s)
            /\ 0 <= first s
            /\ 0 <= padding s
            /\ (padding s = 0 -> 1 <= first s))
         [init "" "shot12_v" ".exr" 9 11 0].
Proof.
  apply (find_in_list_counter (2 ^ 63 - 1)
           ["shot12_v10.exr"; "shot12_v9.exr"; "shot12_v11.exr"] _ []).
  vm_compute. reflexivity.
Defined.

(** ** [__repr__] *)

(** X21. [repr] shows the counters of the first and of the last file name
    of a sequence that is not empty, as they are in these names, between
    the head and the tail. *)
Theorem repr_first_last (self : FileSequence) :
  first self <= last self ->
  exists a b : string,
    filename self (first self) = Ok (head self ++ a ++ tail self)%string
    /\ filename self (last self) = Ok (head self ++ b ++ tail self)%string
    /\ repr self
       = (head self ++ "[" ++ a ++ "-" ++ b ++ "]" ++ tail self)%string
    /\ len (repr self) = len (head self) + len a + len b + len (tail self) + 3.
Proof.
  intros H.
  exists (zfill (str (first self)) (padding self)),
         (zfill (str (last self)) (padding self)).
  rewrite !filename_in_range by lia.
  split; [reflexivity|]. split; [reflexivity|].
  assert (E : repr self
              = (head self ++ "[" ++ zfill (str (first self)) (padding self)
                 ++ "-" ++ zfill (str (last self)) (padding self) ++ "]"
                 ++ tail self)%string).
  { unfold repr. cbn [join fold_right]. now rewrite append_nil_r. }
  split; [exact E|].
  rewrite E, !len_append. unfold len at 2 4 6. simpl String.length. lia.
Qed.

Lemma repr_first_last_witness :
  exists a b : string,
    filename (init "" "my_sequence." ".ext" 1 5 4) 1
    = Ok ("my_sequence." ++ a ++ ".ext")%string
    /\ filename (init "" "my_sequence." ".ext" 1 5 4) 5
       = Ok ("my_sequence." ++ b ++ ".ext")%string
    /\ repr (init "" "my_sequence." ".ext" 1 5 4)
       = ("my_sequence." ++ "[" ++ a ++ "-" ++ b ++ "]" ++ ".ext")%string
    /\ len (repr (init "" "my_sequence." ".ext" 1 5 4))
       = len "my_sequence." + len a + len b + len ".ext" + 3.
Proof.
  apply (repr_first_last (init "" "my_sequence." ".ext" 1 5 4)). simpl. lia.
Defined.
